(** * UNO reinforcement-learning simulator: a shallow embedding

    The development follows the Python modules of the repository:
    [state_action_reward] (state space, actions, reward table), [agents]
    (Q-learning and Monte Carlo agents over pandas tables), [cards] (cards
    and the deck), [utils] ([check_win]), [turn] (start-up and the penalty
    chain) and [game] (turn alternation).

    Conventions.  A Python value that is an [int] or a [str] is a [pyval].
    A call that raises (KeyError, IndexError, TypeError, UnboundLocalError)
    returns [None]; the methods of the Monte Carlo agent, which assign to
    the agent before a statement that raises, return the agent as the call
    leaves it as well.  The tables are numpy [float64] arrays: their
    entries are binary64 primitive floats. *)

From Stdlib Require Import PrimFloat ZArith.
From stdpp Require Import base option list sets strings pretty.

#[local] Set Warnings "-inexact-float".
#[local] Open Scope Z_scope.

(** ** Python values *)

Inductive pyval : Type :=
| PInt (z : Z)
| PStr (s : string).

#[global] Instance pyval_eq_dec : EqDecision pyval.
Proof. solve_decision. Defined.

(** [range(lo, hi)] *)
Definition py_range (lo hi : Z) : list Z :=
  (λ i : nat, lo + Z.of_nat i) <$> seq 0 (Z.to_nat (hi - lo)).

(** [sum(xs)] over a sequence of Python values, starting from the int 0:
    adding a [str] raises TypeError. *)
Fixpoint py_sum (xs : list pyval) : option Z :=
  match xs with
  | [] => Some 0
  | PInt z :: xs' => (λ t, z + t) <$> py_sum xs'
  | PStr _ :: _ => None
  end.

(** [xs[lo:hi]] for non-negative bounds *)
Definition py_slice {A} (xs : list A) (lo hi : nat) : list A :=
  take (hi - lo) (drop lo xs).

(** [itertools.product] over the axes: the last axis varies fastest. *)
Fixpoint product {A} (axes : list (list A)) : list (list A) :=
  match axes with
  | [] => [[]]
  | ax :: axes' => x ← ax; (λ t, x :: t) <$> product axes'
  end.

(** ** Module state_action_reward *)

(** A state is the tuple [(colour, RED, GRE, BLU, YEL, SKI, REV, PL2, PL4,
    COL, RED#, GRE#, BLU#, YEL#, SKI#, REV#, PL2#)]. *)
Definition State : Type := list pyval.

Definition norm_cards : list (string * Z) :=
  [("RED", 2); ("GRE", 2); ("BLU", 2); ("YEL", 2)]%string.
Definition spec_cards : list (string * Z) :=
  [("SKI", 1); ("REV", 1); ("PL2", 1)]%string.
Definition wild_cards : list (string * Z) :=
  [("PL4", 1); ("COL", 1)]%string.
Definition norm_cards_play : list (string * Z) :=
  [("RED#", 1); ("GRE#", 1); ("BLU#", 1); ("YEL#", 1)]%string.
Definition spec_cards_play : list (string * Z) :=
  [("SKI#", 1); ("REV#", 1); ("PL2#", 1)]%string.

Definition states_dict : list (string * Z) :=
  norm_cards ++ spec_cards ++ wild_cards ++ norm_cards_play ++ spec_cards_play.

Definition state_colors : list string := ["RED"; "GRE"; "BLU"; "YEL"]%string.

(** The list [states] before the product: the colours, then one range per
    value of [states_dict]. *)
Definition state_axes : list (list pyval) :=
  (PStr <$> state_colors)
    :: ((λ kv : string * Z, PInt <$> py_range 0 (kv.2 + 1)) <$> states_dict).

(** [t[i] >= t[j]] on a tuple: out of range raises, and so does comparing
    an [int] with a [str]. *)
Definition item_ge (t : State) (i j : nat) : option bool :=
  match t !! i, t !! j with
  | Some (PInt a), Some (PInt b) => Some (b <=? a)
  | Some (PStr a), Some (PStr b) => Some (String.leb b a)
  | _, _ => None
  end.

(** The filter of [states()]: a short-circuit conjunction. *)
Fixpoint all_ge (t : State) (pairs : list (nat * nat)) : option bool :=
  match pairs with
  | [] => Some true
  | (i, j) :: pairs' =>
      b ← item_ge t i j;
      if b : bool then all_ge t pairs' else Some false
  end.

Definition state_constraints : list (nat * nat) :=
  [(1, 10); (2, 11); (3, 12); (4, 13); (5, 14); (6, 15); (7, 16)]%nat.

Fixpoint filter_states (ts : list State) : option (list State) :=
  match ts with
  | [] => Some []
  | t :: ts' =>
      b ← all_ge t state_constraints;
      rest ← filter_states ts';
      Some (if b : bool then t :: rest else rest)
  end.

Definition states : option (list State) :=
  filter_states (product state_axes).

Definition actions : list string :=
  ["RED"; "GRE"; "BLU"; "YEL"; "SKI"; "REV"; "PL2"; "PL4"; "COL"]%string.

(** [min(sum(states[i][1:10]), 1)]: the clamped number of held cards *)
Definition state_t (s : State) : option Z :=
  (λ t, Z.min t 1) <$> py_sum (py_slice s 1 10).

(** ** Labelled tables (pandas.DataFrame over a numpy float64 array) *)

Record DataFrame : Type := mkDataFrame {
  data : list (list float);
  columns : list string;
  index : list State
}.

(** [np.zeros((n, m))] *)
Definition zeros (n m : nat) : list (list float) :=
  replicate n (replicate m 0%float).

(** Position of a label: the first match; a missing label raises KeyError. *)
Definition get_loc {A} `{EqDecision A} (x : A) (labels : list A) : option nat :=
  fst <$> list_find (λ y, y = x) labels.

#[global] Arguments get_loc : simpl never.

(** The entry of the table under the row label [s] and the column label
    [a]; a missing label raises KeyError.  This is what the read
    [df.loc[[s], a].iloc[0]] of [QLearningAgent.step] gives: the row label
    is passed inside a list. *)
Definition loc (df : DataFrame) (s : State) (a : string) : option float :=
  i ← get_loc s (index df);
  j ← get_loc a (columns df);
  row ← data df !! i;
  row !! j.

(** [df.loc[s, a]] with the state tuple [s] itself in the row position, the
    read of [QLearningAgent.update], [MonteCarloAgent.step] and
    [MonteCarloAgent.update].  The index of a table is flat: its labels are
    the state tuples, as [DataFrame(..., index=states)] keeps a list of
    tuples.  On a flat index [.loc] takes a tuple in the row position for a
    list of row labels and looks up each component of [s], of which a state
    has 17; a component is a str or an int, no label of an index of tuples,
    so the read raises, for a state that has a row as for one that has
    none. *)
Definition loc_tuple (df : DataFrame) (s : State) (a : string) : option float :=
  None.

(** [df.loc[s, a] = v], storing [v] in the entry.  Every assignment of the
    agents follows a read [df.loc[s, a]] of the same entry, which raises
    first. *)
Definition set_loc (df : DataFrame) (s : State) (a : string) (v : float)
  : option DataFrame :=
  i ← get_loc s (index df);
  j ← get_loc a (columns df);
  row ← data df !! i;
  _ ← row !! j;
  Some (mkDataFrame (<[i := <[j := v]> row]> (data df)) (columns df) (index df)).

Fixpoint foldM {A B} (f : B → A → option B) (b : B) (l : list A) : option B :=
  match l with
  | [] => Some b
  | x :: l' => b' ← f b x; foldM f b' l'
  end.

(** [rewards(states, actions)] *)
Definition rewards (states : list State) (actions : list string)
  : option DataFrame :=
  let R := zeros (length states) (length actions) in
  states_t ← mapM state_t states;
  R ← foldM (λ R i,
        t ← states_t !! i;
        Some (if t =? 0 then alter (fmap (λ _, 1%float)) i R else R))
      R (seq 0 (length states));
  Some (mkDataFrame R actions states).

(** ** Module agents *)

Record Agent : Type := mkAgent {
  epsilon : float;
  step_size : float;
  agent_states : list State;
  agent_actions : list string;
  R : DataFrame;
  q : DataFrame;
  visit : DataFrame
}.

Definition Agent_init (epsilon step_size : float) : option Agent :=
  sts ← states;
  let acts := actions in
  R ← rewards sts acts;
  let q := mkDataFrame (zeros (length sts) (length acts)) acts sts in
  Some (mkAgent epsilon step_size sts acts R q q).

(** [tuple(state_dict.values())] of an insertion-ordered dict *)
Definition state_of_dict (state_dict : list (string * pyval)) : State :=
  state_dict.*2.

(** *** QLearningAgent: [prev_state] and [prev_action] start as the int 0
    and hold a tuple and an action label afterwards. *)
Record QLearningAgent : Type := mkQLearningAgent {
  ql_agent : Agent;
  prev_state : Z + State;
  prev_action : Z + string
}.

Definition QLearningAgent_init (epsilon step_size : float)
  : option QLearningAgent :=
  a ← Agent_init epsilon step_size;
  Some (mkQLearningAgent a (inl 0) (inl 0)).

(** [self.prev_state != 0] *)
Definition prev_state_ne_0 (p : Z + State) : bool :=
  match p with
  | inl z => negb (z =? 0)
  | inr _ => true
  end.

(** The labels used by [self.q.loc[self.prev_state, self.prev_action]]: an
    int is no label of either axis. *)
Definition prev_labels (self : QLearningAgent) : option (State * string) :=
  match prev_state self, prev_action self with
  | inr s, inr a => Some (s, a)
  | _, _ => None
  end.

(** [QLearningAgent.update]; [None] when the call raises.  With a
    previous pair the first statement of the branch is a read
    [self.q.loc[self.prev_state, self.prev_action]], which raises before
    anything is assigned: an agent on which the call raises is as it was. *)
Definition QLearningAgent_update (self : QLearningAgent)
    (state_dict : list (string * pyval)) (action : string)
  : option QLearningAgent :=
  let state := state_of_dict state_dict in
  let ag := ql_agent self in
  ag' ←
    (if prev_state_ne_0 (prev_state self) then
       '(ps, pa) ← prev_labels self;
       prev_q ← loc_tuple (q ag) ps pa;
       this_q ← loc_tuple (q ag) state action;
       reward ← loc_tuple (R ag) state action;
       q' ← (if (reward =? 0)%float
             then set_loc (q ag) ps pa
                    (prev_q + step_size ag * (reward + this_q - prev_q))%float
             else set_loc (q ag) ps pa
                    (prev_q + step_size ag * (reward - prev_q))%float);
       v ← loc_tuple (visit ag) ps pa;
       visit' ← set_loc (visit ag) ps pa (v + 1)%float;
       Some (mkAgent (epsilon ag) (step_size ag) (agent_states ag)
               (agent_actions ag) (R ag) q' visit')
     else Some ag);
  Some (mkQLearningAgent ag' (inr state) (inr action)).

(** *** MonteCarloAgent *)
Record MonteCarloAgent : Type := mkMonteCarloAgent {
  mc_agent : Agent;
  state_seen : list State;
  action_seen : list string;
  q_seen : list (State * string)
}.

Definition MonteCarloAgent_init (epsilon step_size : float)
  : option MonteCarloAgent :=
  a ← Agent_init epsilon step_size;
  Some (mkMonteCarloAgent a [] [] []).

(** The outcomes of the three calls of [random] in one [step]:
    [random.random()], the position picked by [random.choice] and the
    order left by [random.shuffle]. *)
Record Rand : Type := mkRand {
  rnd_random : float;
  rnd_choice : nat;
  rnd_shuffle : list string → list string
}.

(** [[key for key, val in actions_dict.items() if val != 0]] *)
Definition actions_possible (actions_dict : list (string * Z)) : list string :=
  (filter (λ kv : string * Z, kv.2 ≠ 0) actions_dict).*1.

(** [random.choice(l)]: IndexError on an empty list *)
Definition random_choice {A} (rnd : Rand) (l : list A) : option A :=
  l !! (rnd_choice rnd `mod` length l)%nat.

(** The scan of [QLearningAgent.step] for the maximal Q-value, reading
    [self.q.loc[[state], i].iloc[0]]: [(val_max, action)], where [action] is
    unbound until some value passes [val >= val_max]. *)
Definition greedy_scan (q : DataFrame) (state : State) (cands : list string)
  : option (float * option string) :=
  foldM (λ (acc : float * option string) i,
      val ← loc q state i;
      Some (if (acc.1 <=? val)%float then (val, Some i) else acc))
    (neg_infinity, None) cands.

(** The scan of [MonteCarloAgent.step], which reads [self.q.loc[state, i]] *)
Definition MonteCarlo_scan (q : DataFrame) (state : State) (cands : list string)
  : option (float * option string) :=
  foldM (λ (acc : float * option string) i,
      val ← loc_tuple q state i;
      Some (if (acc.1 <=? val)%float then (val, Some i) else acc))
    (neg_infinity, None) cands.

(** [MonteCarloAgent.step] appends to the buffers of the episode before its
    last statement, which can raise, and an exception does not take the
    appended items back.  So the two methods of the Monte Carlo agent give
    the agent as the call leaves it, with the value returned or [None] when
    the call raises. *)
Definition MonteCarloAgent_step (self : MonteCarloAgent) (rnd : Rand)
    (state_dict : list (string * pyval)) (actions_dict : list (string * Z))
  : MonteCarloAgent * option string :=
  let state := state_of_dict state_dict in
  let ag := mc_agent self in
  match
    (if (rnd_random rnd <? epsilon ag)%float then
       random_choice rnd (actions_possible actions_dict)
     else
       r ← MonteCarlo_scan (q ag) state
             (rnd_shuffle rnd (actions_possible actions_dict));
       r.2)
  with
  | None => (self, None)
  | Some action =>
      let '(state_seen', action_seen') :=
        if bool_decide ((state, action) ∉ q_seen self)
        then (state_seen self ++ [state], action_seen self ++ [action])
        else (state_seen self, action_seen self) in
      let q_seen' := q_seen self ++ [(state, action)] in
      match
        (v ← loc_tuple (visit ag) state action;
         set_loc (visit ag) state action (v + 1)%float)
      with
      | None => (mkMonteCarloAgent ag state_seen' action_seen' q_seen', None)
      | Some visit' =>
          (mkMonteCarloAgent
             (mkAgent (epsilon ag) (step_size ag) (agent_states ag)
                (agent_actions ag) (R ag) (q ag) visit')
             state_seen' action_seen' q_seen',
           Some action)
      end
  end.

(** The loop of [MonteCarloAgent.update] over the first visits: the Q-table
    as the loop leaves it, and whether it ran to its end *)
Fixpoint MonteCarlo_update_loop (step_size reward : float) (q : DataFrame)
    (pairs : list (State * string)) : DataFrame * bool :=
  match pairs with
  | [] => (q, true)
  | (s, a) :: pairs' =>
      match
        (v ← loc_tuple q s a;
         set_loc q s a (v + step_size * (reward - v))%float)
      with
      | None => (q, false)
      | Some q' => MonteCarlo_update_loop step_size reward q' pairs'
      end
  end.

Definition MonteCarloAgent_update (self : MonteCarloAgent)
    (state_dict : list (string * pyval)) (action : string)
  : MonteCarloAgent * option unit :=
  let state := state_of_dict state_dict in
  let ag := mc_agent self in
  match loc_tuple (R ag) state action with
  | None => (self, None)
  | Some reward =>
      let '(q', finished) :=
        MonteCarlo_update_loop (step_size ag) reward (q ag)
          (zip (state_seen self) (action_seen self)) in
      let ag' := mkAgent (epsilon ag) (step_size ag) (agent_states ag)
                   (agent_actions ag) (R ag) q' (visit ag) in
      if finished
      then (mkMonteCarloAgent ag' [] [] [], Some ())
      else (mkMonteCarloAgent ag' (state_seen self) (action_seen self)
              (q_seen self), None)
  end.

(** ** Module cards *)

Record Card : Type := mkCard {
  color : pyval;
  value : pyval
}.

#[global] Instance Card_eq_dec : EqDecision Card.
Proof. solve_decision. Defined.

(** [Card.evaluate_card]: [True], or [None] (falsy) when no test passes *)
Definition evaluate_card (self : Card) (open_c open_v : pyval) : bool :=
  bool_decide (color self = open_c)
  || bool_decide (value self = open_v)
  || bool_decide (value self ∈ [PStr "COL"; PStr "PL4"]).

Record Deck : Type := mkDeck {
  cards : list Card;
  cards_disc : list Card
}.

Definition deck_colors : list string := ["RED"; "GRE"; "BLU"; "YEL"]%string.

Definition cards_zero : list Card :=
  (λ c, mkCard (PStr c) (PInt 0)) <$> deck_colors.

Definition cards_normal : list Card :=
  let once := c ← deck_colors; (λ v, mkCard (PStr c) (PInt v)) <$> py_range 1 10 in
  once ++ once.

Definition cards_action : list Card :=
  let once :=
    c ← deck_colors;
    (λ v, mkCard (PStr c) (PStr v)) <$> ["SKI"; "REV"; "PL2"]%string in
  once ++ once.

Definition cards_wild : list Card :=
  let once := (λ v, mkCard (PStr "WILD") (PStr v)) <$> ["COL"; "PL4"]%string in
  once ++ once ++ once ++ once.

Definition cards_all : list Card :=
  cards_normal ++ cards_action ++ cards_zero ++ cards_wild.




Definition Deck_discard (self : Deck) (card : Card) : Deck :=
  mkDeck (cards self) (cards_disc self ++ [card]).

(** [l.pop()]: the last element leaves the list; IndexError when empty *)
Definition pop {A} (l : list A) : option (A * list A) :=
  x ← last l; Some (x, removelast l).

Definition Deck_draw_from_deck (self : Deck) : option (Card * Deck) :=
  let self1 :=
    if (length (cards self) =? 0)%nat
    then mkDeck (cards_disc self) []
    else self in
  '(card, rest) ← pop (cards self1);
  Some (card, mkDeck rest (cards_disc self1)).

(** ** Module players (its file is not part of the sources at hand) *)

(** Modelled from the spec: the class [Player] of src/players.py is missing.
    A player owns a hand, the playable sub-view of the hand recomputed
    against the open card, and the card played last. *)
Record Player : Type := mkPlayer {
  name : string;
  hand : list Card;
  hand_play : list Card;
  card_play : Card
}.

(** Modelled from the spec: [Player.evaluate_hand] of the missing
    src/players.py, "a sub-view playable is recomputed on demand against the
    current open card". *)
Definition Player_evaluate_hand (self : Player) (card_open : Card) : Player :=
  mkPlayer (name self) (hand self)
    (filter (λ c, evaluate_card c (color card_open) (value card_open) = true)
       (hand self))
    (card_play self).

(** Modelled from the spec: [Player.draw] of the missing src/players.py,
    "draw one card from the deck": the card drawn joins the hand and the
    playable sub-view is recomputed. *)
Definition Player_draw (self : Player) (deck : Deck) (card_open : Card)
  : option (Player * Deck) :=
  '(card, deck') ← Deck_draw_from_deck deck;
  Some (Player_evaluate_hand
          (mkPlayer (name self) (hand self ++ [card]) (hand_play self)
             (card_play self))
          card_open,
        deck').

(** [l.remove(x)] for an [x] taken from [l]: the first occurrence leaves *)
Fixpoint remove_first {A} `{EqDecision A} (x : A) (l : list A) : list A :=
  match l with
  | [] => []
  | y :: l' => if decide (y = x) then l' else y :: remove_first x l'
  end.

(** Modelled from the spec: [Player.play_counter] of the missing
    src/players.py, "that player plays it (... removed from hand)": the
    counter card becomes the card played, leaves the hand and goes to the
    discard pile, every card being in a pile or in a hand. *)
Definition Player_play_counter (self : Player) (deck : Deck) (card_open : Card)
    (plus_card : Card) : Player * Deck :=
  (Player_evaluate_hand
     (mkPlayer (name self) (remove_first plus_card (hand self))
        (hand_play self) plus_card)
     card_open,
   Deck_discard deck plus_card).

(** ** Module utils *)

(** [check_win]: [True], or [None] (falsy) *)
Definition check_win (player : Player) : bool :=
  (length (hand player) =? 0)%nat.

(** ** Module turn *)


(** [card.value in range(0, 10)] *)
Definition in_range_0_10 (v : pyval) : bool :=
  match v with
  | PInt z => (0 <=? z) && (z <? 10)
  | PStr _ => false
  end.

(** The [while] loop of [start_up].  Every round draws a card, so the loop
    ends, by a normal card or by IndexError, within as many rounds as the
    two piles hold cards, plus one. *)
Fixpoint start_up_loop (fuel : nat) (deck : Deck) (card_open : Card)
  : option (Card * Deck) :=
  if in_range_0_10 (value card_open) then Some (card_open, deck)
  else
    match fuel with
    | O => None
    | S fuel' =>
        '(card, deck') ← Deck_draw_from_deck deck;
        start_up_loop fuel' deck' card
    end.




(** [card.value == "PL" + str(penalty)] *)
Definition is_plus (penalty : Z) (card : Card) : bool :=
  bool_decide (value card = PStr ("PL" +:+ pretty penalty)).

(** [for card in hand: if card.value == ...: ...; break]: the card the scan
    stops at *)
Definition find_plus (penalty : Z) (hand : list Card) : option Card :=
  snd <$> list_find (λ c, is_plus penalty c = true) hand.

(** The working state of [action_plus]: the deck, the player passed as
    [player], the one passed as [opponent], and [self.count]. *)
Record Chain : Type := mkChain {
  ch_deck : Deck;
  ch_act : Player;
  ch_pas : Player;
  ch_count : Z
}.

(** How the [while] loop of [action_plus] is left: by a [return] after a
    win check, or by its condition. *)
Inductive chain_exit : Type :=
| Returned (c : Chain)
| Fell_through (c : Chain).

(** One player's scan of the hand for a counter card: [(state, hit)] *)
Definition counter_pas (penalty : Z) (card_open : Card) (c : Chain) : Chain * bool :=
  match find_plus penalty (hand (ch_pas c)) with
  | Some card =>
      let '(p, d) := Player_play_counter (ch_pas c) (ch_deck c) card_open card in
      (mkChain d (ch_act c) p (ch_count c + 1), true)
  | None => (c, false)
  end.

Definition counter_act (penalty : Z) (card_open : Card) (c : Chain) : Chain * bool :=
  match find_plus penalty (hand (ch_act c)) with
  | Some card =>
      let '(p, d) := Player_play_counter (ch_act c) (ch_deck c) card_open card in
      (mkChain d p (ch_pas c) (ch_count c + 1), true)
  | None => (c, false)
  end.

(** The [while hit] loop of [action_plus], entered with [hit = True].  A
    round that goes on has taken a card from each hand, so the loop runs at
    most as many rounds as [player]'s hand has cards, plus one. *)
Fixpoint chain_loop (fuel : nat) (penalty : Z) (card_open : Card) (c : Chain)
  : option chain_exit :=
  match fuel with
  | O => None
  | S fuel' =>
      let '(c1, hit) := counter_pas penalty card_open c in
      if check_win (ch_pas c1) then Some (Returned c1)
      else
        let '(c2, hit) :=
          if hit then counter_act penalty card_open c1 else (c1, hit) in
        if check_win (ch_act c2) then Some (Returned c2)
        else if hit then chain_loop fuel' penalty card_open c2
        else Some (Fell_through c2)
  end.

(** [for i in range(n): player.draw(self.deck, self.card_open)] *)
Fixpoint draw_n (n : nat) (p : Player) (deck : Deck) (card_open : Card)
  : option (Player * Deck) :=
  match n with
  | O => Some (p, deck)
  | S n' =>
      '(p', deck') ← Player_draw p deck card_open;
      draw_n n' p' deck' card_open
  end.

(** [Turn.action_plus(player, opponent, penalty)] on the deck and the open
    card of the turn: the players and the deck as the call leaves them, with
    [self.count]. *)
Definition Turn_action_plus (deck : Deck) (card_open : Card)
    (player opponent : Player) (penalty : Z) : option Chain :=
  let c0 := mkChain deck player opponent 1 in
  e ← chain_loop (S (length (hand player))) penalty card_open c0;
  match e with
  | Returned c => Some c
  | Fell_through c =>
      if ch_count c `mod` 2 =? 0 then
        '(p, d) ← draw_n (Z.to_nat (ch_count c * penalty)) (ch_act c)
                    (ch_deck c) card_open;
        Some (mkChain d p (ch_pas c) (ch_count c))
      else
        '(p, d) ← draw_n (Z.to_nat (ch_count c * penalty)) (ch_pas c)
                    (ch_deck c) card_open;
        Some (mkChain d (ch_act c) p (ch_count c))
  end.

(** ** Module game *)

Inductive role : Type := First | Second.

(** Who is active in the round numbered [turn_no]: [First] stands for
    [self.player_1] being [player_act], [Second] for [self.player_2]. *)
Definition active_player (starting_name player_1_name : string) (turn_no : Z)
  : role :=
  if bool_decide (starting_name = player_1_name) then
    if turn_no `mod` 2 =? 1 then First else Second
  else
    if turn_no `mod` 2 =? 0 then First else Second.

(** The end of a round of the game loop that no player has won: the two
    tests on the card played and on the counter of the turn. *)
Definition turn_no_after (turn_no : Z) (card_play : Card) (count : Z) : Z :=
  let turn_no :=
    if bool_decide (value card_play ∈ [PStr "REV"; PStr "SKIP"])
    then turn_no - 1 else turn_no in
  let turn_no :=
    if (0 <? count) && (count `mod` 2 =? 0)
    then turn_no - 1 else turn_no in
  turn_no.

(** The number of the next round: [self.turn_no += 1] opens the loop body. *)
Definition next_turn_no (turn_no : Z) (card_play : Card) (count : Z) : Z :=
  turn_no_after turn_no card_play count + 1.

(** ** Predicates used in the statements *)

(** Ceilings of the nine held counts and of the seven playable counts *)
Definition held_ceilings : list Z := (norm_cards ++ spec_cards ++ wild_cards).*2.
Definition playable_ceilings : list Z := (norm_cards_play ++ spec_cards_play).*2.

(** The tuples of [states()]: a colour label, nine held counts and seven
    playable counts within their ceilings, no playable count above the held
    count of its type. *)
Definition legal_state (s : State) : Prop :=
  ∃ (c : string) (held play : list Z),
    s = PStr c :: (PInt <$> held ++ play)
    ∧ c ∈ state_colors
    ∧ Forall2 (λ h m, 0 ≤ h ≤ m) held held_ceilings
    ∧ Forall2 (λ p m, 0 ≤ p ≤ m) play playable_ceilings
    ∧ Forall2 (λ p h, p ≤ h) play (take 7 held).

(** The tuples the specification describes: counts only. *)
Definition counts_only_state (s : State) : Prop :=
  ∃ (held play : list Z),
    s = PInt <$> held ++ play
    ∧ Forall2 (λ h m, 0 ≤ h ≤ m) held held_ceilings
    ∧ Forall2 (λ p m, 0 ≤ p ≤ m) play playable_ceilings
    ∧ Forall2 (λ p h, p ≤ h) play (take 7 held).

(** [sum] of a list of integers *)
Definition sum_list_Z (zs : list Z) : Z := foldr Z.add 0 zs.

(** The reward rule as the specification words it: 1 when the held counts
    sum to at most 1, else 0. *)
Definition reward_rule_at_most_one (l : list State) (R : DataFrame) : Prop :=
  ∀ (c : string) (held play : list Z) (a : string),
    PStr c :: (PInt <$> held ++ play) ∈ l →
    length held = 9%nat →
    a ∈ actions →
    loc R (PStr c :: (PInt <$> held ++ play)) a
    = Some (if bool_decide (sum_list_Z held ≤ 1) then 1%float else 0%float).

(** A table is well formed when it has a row for each index label and an
    entry for each column label in every row. *)
Definition df_wf (df : DataFrame) : Prop :=
  length (data df) = length (index df)
  ∧ Forall (λ row, length row = length (columns df)) (data df).

(** A hand of one red card, none of it playable *)
Definition one_red_state : State :=
  PStr "RED" :: (PInt <$> [1; 0; 0; 0; 0; 0; 0; 0; 0] ++ [0; 0; 0; 0; 0; 0; 0]).

(** The empty hand *)
Definition no_card_state : State :=
  PStr "RED" :: (PInt <$> [0; 0; 0; 0; 0; 0; 0; 0; 0] ++ [0; 0; 0; 0; 0; 0; 0]).

(** The tables of an agent have the shape [Agent.__init__] gives them: the
    Q-table is well formed and the visit table has its labels. *)
Definition agent_wf (ag : Agent) : Prop :=
  df_wf (q ag)
  ∧ index (visit ag) = index (q ag)
  ∧ columns (visit ag) = columns (q ag).


(** Keys for a state dict, in the order of the tuple *)
Definition state_keys : list string := "COLOR"%string :: states_dict.*1.
Definition dict_of_state (s : State) : list (string * pyval) := zip state_keys s.

(** A small agent over two states, for examples *)
Definition example_states : list State := [one_red_state; no_card_state].
Definition example_R : DataFrame :=
  mkDataFrame [replicate 9 0%float; replicate 9 1%float] actions example_states.
Definition example_agent (step_size q0 : float) : Agent :=
  mkAgent 0.1 step_size example_states actions example_R
    (mkDataFrame [q0 :: replicate 8 0%float; replicate 9 0%float]
       actions example_states)
    (mkDataFrame (zeros 2 9) actions example_states).

(** An agent at the start of an episode *)
Definition example_mc (step_size q0 : float) : MonteCarloAgent :=
  mkMonteCarloAgent (example_agent step_size q0) [] [] [].

(** Outcomes of [random] with which [step] explores: [random.random()]
    gives 0, below [epsilon], and [random.choice] picks the first action *)
Definition example_rnd : Rand := mkRand 0 0 (λ l, l).

(** The cards in the two piles of a deck *)
Definition piles (d : Deck) : nat := (length (cards d) + length (cards_disc d))%nat.



(** A card that cannot open the game: its value is not in 0..9 *)
Definition not_normal (c : Card) : Prop := in_range_0_10 (value c) = false.



(** A scene for the penalty chain: five cards in the draw pile, one card
    in each hand, a draw-two card just played *)
Definition example_deck : Deck :=
  mkDeck [mkCard (PStr "RED") (PInt 1); mkCard (PStr "GRE") (PInt 2);
          mkCard (PStr "BLU") (PInt 3); mkCard (PStr "YEL") (PInt 4);
          mkCard (PStr "RED") (PInt 7)] [].
Definition example_plus2 : Card := mkCard (PStr "RED") (PStr "PL2").
Definition example_player : Player :=
  mkPlayer "P1" [mkCard (PStr "RED") (PInt 5)] [] example_plus2.
Definition example_opponent_plus2 : Player :=
  mkPlayer "P2" [mkCard (PStr "BLU") (PInt 3); mkCard (PStr "BLU") (PStr "PL2")]
    [] (mkCard (PInt 0) (PInt 0)).

(** ** More of the modules *)

(** [QLearningAgent.step]: the epsilon-greedy choice, with no record kept.
    The greedy scan reads [self.q.loc[[state], i].iloc[0]], the entry of the
    Q-table or KeyError. *)
Definition QLearningAgent_step (self : QLearningAgent) (rnd : Rand)
    (state_dict : list (string * pyval)) (actions_dict : list (string * Z))
  : option string :=
  let state := state_of_dict state_dict in
  let ag := ql_agent self in
  if (rnd_random rnd <? epsilon ag)%float then
    random_choice rnd (actions_possible actions_dict)
  else
    r ← greedy_scan (q ag) state (rnd_shuffle rnd (actions_possible actions_dict));
    r.2.

(** [tournament]: the name of the starting player of game [i] *)
Definition tournament_starting_name (i : Z) (player_name_1 player_name_2 : string)
  : string :=
  if i `mod` 2 =? 1 then player_name_2 else player_name_1.

(** [k] calls of [draw_from_deck] in a row: the cards drawn, in order *)
Fixpoint draw_k (k : nat) (d : Deck) : option (list Card * Deck) :=
  match k with
  | O => Some ([], d)
  | S k' =>
      '(card, d1) ← Deck_draw_from_deck d;
      '(drawn, d2) ← draw_k k' d1;
      Some (card :: drawn, d2)
  end.

(** The number of tuples of a product that pass a test, counted axis by
    axis; [acc] is the part of the tuple chosen so far, last choice first. *)
Fixpoint count_product {A} (P : list A → bool) (axes : list (list A))
    (acc : list A) : Z :=
  match axes with
  | [] => if P (reverse acc) then 1 else 0
  | ax :: axes' => foldr (λ x n, count_product P axes' (x :: acc) + n) 0 ax
  end.

(** A state that no table of the examples has: a tuple of one component *)
Definition unknown_state : State := [PStr "RED"].

(** The example agent with [(one_red_state, "RED")] recorded [n] times in
    the episode, [n] at least 1, and [count] as the visit count of the
    pair *)
Definition example_mc_visited (n : nat) (count : float) : MonteCarloAgent :=
  mkMonteCarloAgent
    (mkAgent 0.1 0.5 example_states actions example_R
       (mkDataFrame [replicate 9 0%float; replicate 9 0%float]
          actions example_states)
       (mkDataFrame [count :: replicate 8 0%float; replicate 9 0%float]
          actions example_states))
    [one_red_state] ["RED"%string]
    (replicate n (one_red_state, "RED"%string)).

(** * Properties *)

(** ** The state space *)

Lemma elem_of_product {A} (axes : list (list A)) (t : list A) :
  t ∈ product axes ↔ Forall2 (λ x ax, x ∈ ax) t axes.
Proof.
  revert t. induction axes as [|ax axes IH]; intros t; simpl.
  - rewrite list_elem_of_singleton. split.
    + intros ->. constructor.
    + intros H. by apply Forall2_nil_inv_r in H.
  - rewrite list_elem_of_bind. split.
    + intros (x & Ht & Hx). apply list_elem_of_fmap in Ht as (t' & -> & Ht').
      constructor; [done | by apply IH].
    + intros H. apply Forall2_cons_inv_r in H as (x & t' & Hx & Ht' & ->).
      exists x. split; [| done]. apply list_elem_of_fmap. exists t'.
      split; [done | by apply IH].
Qed.

Lemma NoDup_product {A} (axes : list (list A)) :
  Forall NoDup axes → NoDup (product axes).
Proof.
  induction 1 as [|ax axes Hax _ IH]; simpl.
  - apply NoDup_singleton.
  - apply NoDup_bind; [| | done].
    + intros x1 x2 t _ _ H1 H2.
      apply list_elem_of_fmap in H1 as (t1 & -> & _).
      apply list_elem_of_fmap in H2 as (t2 & Heq & _). congruence.
    + intros x _. apply NoDup_fmap_2; [| done]. intros t1 t2. congruence.
Qed.

Lemma elem_of_py_range (lo hi z : Z) : z ∈ py_range lo hi ↔ lo ≤ z < hi.
Proof.
  unfold py_range. rewrite list_elem_of_fmap. split.
  - intros (i & -> & Hi). apply elem_of_seq in Hi. lia.
  - intros Hz. exists (Z.to_nat (z - lo)). split; [lia |].
    apply elem_of_seq. lia.
Qed.

Lemma filter_states_Some (ts : list State) :
  (∀ t, t ∈ ts → is_Some (all_ge t state_constraints)) →
  filter_states ts
  = Some (filter (λ t, all_ge t state_constraints = Some true) ts).
Proof.
  induction ts as [|t ts IH]; intros Hall; [done |].
  cbn [filter_states].
  destruct (Hall t) as [b Hb]; [left |]. rewrite Hb.
  rewrite IH by (intros t' Ht'; apply Hall; by right).
  cbn [mbind option_bind].
  rewrite filter_cons. destruct b.
  - rewrite decide_True by done. done.
  - rewrite decide_False by congruence. done.
Qed.

Lemma Forall2_count_axes (t : list pyval) (kvs : list (string * Z)) :
  Forall2 (λ x (kv : string * Z), x ∈ PInt <$> py_range 0 (kv.2 + 1)) t kvs ↔
  ∃ zs, t = PInt <$> zs ∧ Forall2 (λ z m, 0 ≤ z ≤ m) zs (kvs.*2).
Proof.
  split.
  - induction 1 as [|x kv t kvs Hx _ (zs & -> & IH)].
    + by exists [].
    + apply list_elem_of_fmap in Hx as (z & -> & Hz).
      apply elem_of_py_range in Hz. exists (z :: zs). split; [done |].
      cbn. constructor; [lia | done].
  - intros (zs & -> & Hzs). revert zs Hzs.
    induction kvs as [|kv kvs IH]; intros zs Hzs; cbn in Hzs.
    + apply Forall2_nil_inv_r in Hzs as ->. constructor.
    + apply Forall2_cons_inv_r in Hzs as (z & zs' & Hz & Hzs' & ->).
      cbn. constructor; [| by apply IH].
      apply list_elem_of_fmap_2, elem_of_py_range. lia.
Qed.

(** Membership in the product of the axes, componentwise *)
Lemma elem_of_state_axes (s : State) :
  s ∈ product state_axes ↔
  ∃ (c : string) (zs : list Z),
    s = PStr c :: (PInt <$> zs) ∧ c ∈ state_colors
    ∧ Forall2 (λ z m, 0 ≤ z ≤ m) zs (states_dict.*2).
Proof.
  rewrite (elem_of_product (A:=pyval) state_axes s). unfold state_axes. split.
  - intros H. apply Forall2_cons_inv_r in H as (x & t & Hx & Ht & ->).
    apply list_elem_of_fmap in Hx as (c & -> & Hc).
    apply Forall2_fmap_r, Forall2_count_axes in Ht as (zs & -> & Hzs).
    by exists c, zs.
  - intros (c & zs & -> & Hc & Hzs). constructor.
    + by apply list_elem_of_fmap_2.
    + apply Forall2_fmap_r, Forall2_count_axes. by exists zs.
Qed.

#[local] Ltac invert_Forall2 :=
  repeat match goal with
    | H : Forall2 _ _ (_ :: _) |- _ =>
        apply Forall2_cons_inv_r in H as (? & ? & ? & H & ->)
    | H : Forall2 _ _ [] |- _ => apply Forall2_nil_inv_r in H as ->
    end.

Lemma all_ge_legal (c : string) (held play : list Z) :
  Forall2 (λ h m, 0 ≤ h ≤ m) held held_ceilings →
  Forall2 (λ p m, 0 ≤ p ≤ m) play playable_ceilings →
  all_ge (PStr c :: (PInt <$> held ++ play)) state_constraints
  = Some (bool_decide (Forall2 (λ p h, p ≤ h) play (take 7 held))).
Proof.
  intros Hh Hp.
  unfold held_ceilings in Hh. unfold playable_ceilings in Hp.
  cbn in Hh, Hp. invert_Forall2.
  cbn -[Z.leb].
  repeat match goal with
    | |- context [?a <=? ?b] => destruct (Z.leb_spec a b); cbn -[Z.leb]
    end;
    f_equal; symmetry;
    first [ apply bool_decide_eq_true; repeat constructor; lia
          | apply bool_decide_eq_false; intros HF;
            repeat match goal with
              | H : Forall2 _ (_ :: _) (_ :: _) |- _ =>
                  apply Forall2_cons_1 in H as [? H]
              end; lia ].
Qed.

Lemma states_filter :
  states
  = Some (filter (λ t, all_ge t state_constraints = Some true)
            (product state_axes)).
Proof.
  apply filter_states_Some. intros t Ht.
  apply elem_of_state_axes in Ht as (c & zs & -> & _ & Hzs).
  change (states_dict.*2) with (held_ceilings ++ playable_ceilings) in Hzs.
  apply Forall2_app_inv_r in Hzs as (held & play & Hh & Hp & ->).
  rewrite all_ge_legal by done. done.
Qed.

(** The list of [states()], characterised *)
Lemma states_legal :
  ∃ l, states = Some l ∧ NoDup l ∧ ∀ s, s ∈ l ↔ legal_state s.
Proof.
  eexists. split; [apply states_filter |]. split.
  - apply NoDup_filter, NoDup_product.
    apply (bool_decide_unpack (Forall NoDup state_axes)). by vm_compute.
  - intros s. rewrite list_elem_of_filter, elem_of_state_axes. split.
    + intros (Hge & c & zs & -> & Hc & Hzs).
      change (states_dict.*2) with (held_ceilings ++ playable_ceilings) in Hzs.
      apply Forall2_app_inv_r in Hzs as (held & play & Hh & Hp & ->).
      rewrite all_ge_legal in Hge by done.
      exists c, held, play. repeat split; try done.
      injection Hge as Hge. by apply bool_decide_eq_true in Hge.
    + intros (c & held & play & -> & Hc & Hh & Hp & Hle). split.
      * rewrite all_ge_legal by done. f_equal. by apply bool_decide_eq_true.
      * exists c, (held ++ play). repeat split; try done.
        change (states_dict.*2) with (held_ceilings ++ playable_ceilings).
        by apply Forall2_app.
Qed.

(** ** Labelled tables *)

Section get_loc.
Context {A : Type} `{EqDecision A}.
Implicit Types (x : A) (labels : list A).

Lemma get_loc_Some x labels i :
  get_loc x labels = Some i → labels !! i = Some x.
Proof.
  unfold get_loc. intros H.
  apply fmap_Some in H as ([i' y] & H & ->).
  apply list_find_Some in H as (H & -> & _). done.
Qed.

Lemma get_loc_is_Some x labels : x ∈ labels → is_Some (get_loc x labels).
Proof.
  intros H. unfold get_loc. apply fmap_is_Some.
  by apply (list_find_elem_of _ _ x).
Qed.

Lemma get_loc_lt x labels i :
  get_loc x labels = Some i → (i < length labels)%nat.
Proof. intros H. apply get_loc_Some in H. by eapply lookup_lt_Some. Qed.

Lemma get_loc_inj x y labels i :
  get_loc x labels = Some i → get_loc y labels = Some i → x = y.
Proof.
  intros Hx Hy. apply get_loc_Some in Hx, Hy. congruence.
Qed.

Lemma get_loc_elem_of x labels i : get_loc x labels = Some i → x ∈ labels.
Proof. intros H. apply get_loc_Some in H. by eapply list_elem_of_lookup_2. Qed.
End get_loc.

Lemma loc_is_Some (df : DataFrame) (s : State) (a : string) :
  df_wf df → s ∈ index df → a ∈ columns df → is_Some (loc df s a).
Proof.
  intros [Hlen Hrows] Hs Ha. unfold loc.
  destruct (get_loc_is_Some _ _ Hs) as [i Hi].
  destruct (get_loc_is_Some _ _ Ha) as [j Hj].
  rewrite Hi, Hj. cbn.
  destruct (lookup_lt_is_Some_2 (data df) i) as [row Hrow].
  { rewrite Hlen. by eapply get_loc_lt. }
  rewrite Hrow. cbn. apply lookup_lt_is_Some_2.
  rewrite (proj1 (Forall_lookup _ _) Hrows _ _ Hrow). by eapply get_loc_lt.
Qed.

Lemma loc_Some_labels (df : DataFrame) (s : State) (a : string) (v : float) :
  loc df s a = Some v → s ∈ index df ∧ a ∈ columns df.
Proof.
  unfold loc. intros H.
  apply bind_Some in H as (i & Hi & H). apply bind_Some in H as (j & Hj & _).
  split; by eapply get_loc_elem_of.
Qed.

Lemma zeros_wf (sts : list State) (acts : list string) :
  df_wf (mkDataFrame (zeros (length sts) (length acts)) acts sts).
Proof.
  split; cbn.
  - apply length_replicate.
  - apply Forall_replicate, length_replicate.
Qed.

(** ** The reward table *)

Lemma rewards_fold (ts : list Z) (ixs : list nat) (R : list (list float)) :
  (∀ i, i ∈ ixs → (i < length ts)%nat) →
  ∃ R',
    foldM (λ R i,
        t ← ts !! i;
        Some (if t =? 0 then alter (fmap (λ _, 1%float)) i R else R)) R ixs
    = Some R'
    ∧ ∀ k, R' !! k
           = (λ row, if bool_decide (k ∈ ixs ∧ ts !! k = Some 0)
                     then (λ _, 1%float) <$> row else row) <$> R !! k.
Proof.
  revert R. induction ixs as [|i ixs IH]; intros R Hlt.
  - exists R. split; [done |]. intros k. destruct (R !! k); [| done]. cbn.
    rewrite bool_decide_eq_false_2; [done |]. intros [H _]. inversion H.
  - destruct (lookup_lt_is_Some_2 ts i) as [t Ht]; [apply Hlt; left |].
    cbn [foldM]. rewrite Ht. cbn [mbind option_bind].
    edestruct IH as (R' & -> & HR'); [intros; apply Hlt; by right |].
    eexists. split; [done |]. intros k. rewrite HR'. clear HR'.
    destruct (Z.eqb_spec t 0) as [-> | Hne].
    + destruct (decide (k = i)) as [-> | Hki].
      * rewrite list_lookup_alter_eq. destruct (R !! i); [| done]. cbn.
        rewrite (bool_decide_eq_true_2 (i ∈ i :: ixs ∧ _)) by (split; [left | done]).
        case_bool_decide; [| done]. by rewrite <- list_fmap_compose.
      * rewrite list_lookup_alter_ne by done. destruct (R !! k); [| done].
        cbn. f_equal.
        repeat case_bool_decide; try done; exfalso; set_unfold;
        intuition congruence.
    + destruct (R !! k); [| done]. cbn. f_equal.
      repeat case_bool_decide; try done; exfalso; set_unfold;
        intuition congruence.
Qed.

(** A row of the reward table is constant: all ones when the clamped number
    of held cards is 0, all zeros otherwise. *)
Lemma rewards_loc (sts : list State) (acts : list string) (R : DataFrame)
    (s : State) (a : string) :
  rewards sts acts = Some R → s ∈ sts → a ∈ acts →
  ∃ t, state_t s = Some t ∧ loc R s a = Some (if t =? 0 then 1%float else 0%float).
Proof.
  unfold rewards. intros H Hs Ha.
  apply bind_Some in H as (ts & Hts & H).
  apply bind_Some in H as (R' & HR' & H). injection H as <-.
  apply mapM_Some in Hts.
  destruct (rewards_fold ts (seq 0 (length sts))
              (zeros (length sts) (length acts))) as (R'' & HR'' & Hrows).
  { intros i Hi. apply elem_of_seq in Hi.
    rewrite <- (Forall2_length _ _ _ Hts). lia. }
  rewrite HR'' in HR'. injection HR' as <-.
  destruct (get_loc_is_Some _ _ Hs) as [i Hi].
  destruct (get_loc_is_Some _ _ Ha) as [j Hj].
  pose proof (get_loc_Some _ _ _ Hi) as Hsi.
  pose proof (get_loc_lt _ _ _ Hi) as Hilt.
  pose proof (get_loc_lt _ _ _ Hj) as Hjlt.
  destruct (Forall2_lookup_l _ _ _ _ _ Hts Hsi) as (t & Hti & Hst).
  exists t. split; [done |]. unfold loc. cbn. rewrite Hi, Hj. cbn.
  rewrite Hrows. unfold zeros. rewrite lookup_replicate_2 by done. cbn.
  rewrite bool_decide_decide. destruct (Z.eqb_spec t 0) as [-> | Hne].
  - rewrite decide_True by (split; [apply elem_of_seq; lia | done]).
    rewrite fmap_replicate. by apply lookup_replicate_2.
  - rewrite decide_False by (intros [_ ?]; congruence).
    by apply lookup_replicate_2.
Qed.

Lemma rewards_is_Some (sts : list State) (acts : list string) :
  Forall (λ s, is_Some (state_t s)) sts → is_Some (rewards sts acts).
Proof.
  intros Hall. unfold rewards.
  destruct (mapM_is_Some_2 state_t sts) as [ts Hts].
  { eapply Forall_impl; [done |]. by intros. }
  rewrite Hts. cbn.
  destruct (rewards_fold ts (seq 0 (length sts))
              (zeros (length sts) (length acts))) as (R' & -> & _); [| done].
  intros i Hi. apply elem_of_seq in Hi.
  rewrite <- (length_mapM _ _ _ Hts). lia.
Qed.

Lemma py_sum_ints (zs : list Z) : py_sum (PInt <$> zs) = Some (sum_list_Z zs).
Proof. induction zs as [|z zs IH]; [done |]. cbn. by rewrite IH. Qed.

(** The clamped number of held cards of a tuple of [states()] *)
Lemma state_t_counts (c : string) (held play : list Z) :
  length held = 9%nat →
  state_t (PStr c :: (PInt <$> held ++ play))
  = Some (Z.min (sum_list_Z held) 1).
Proof.
  intros Hlen. unfold state_t, py_slice. cbn [drop].
  rewrite drop_0, fmap_app, take_app_length'
    by (by rewrite length_fmap).
  by rewrite py_sum_ints.
Qed.

Lemma float_zero_ne_one : 0%float ≠ 1%float.
Proof.
  intros H. pose proof (f_equal (λ x, PrimFloat.eqb x 1) H) as Hc.
  vm_compute in Hc. discriminate.
Qed.

Lemma one_red_state_legal : legal_state one_red_state.
Proof.
  exists "RED"%string, [1; 0; 0; 0; 0; 0; 0; 0; 0], [0; 0; 0; 0; 0; 0; 0].
  split; [done |]. split; [left |].
  repeat split; cbn; repeat constructor; lia.
Qed.

Lemma no_card_state_legal : legal_state no_card_state.
Proof.
  exists "RED"%string, [0; 0; 0; 0; 0; 0; 0; 0; 0], [0; 0; 0; 0; 0; 0; 0].
  split; [done |]. split; [left |].
  repeat split; cbn; repeat constructor; lia.
Qed.

(** C7, as amended.  [states()] returns, without repetition, exactly the
    17-tuples made of a colour label (RED, GRE, BLU or YEL) followed by nine
    held counts (at most 2 for the four colours, at most 1 for the special
    and wild types) and seven playable counts (at most 1), in which no
    playable count exceeds the held count of its type. *)
Theorem states_enumerates_legal_states :
  ∃ l, states = Some l
       ∧ NoDup l
       ∧ (∀ s, s ∈ l ↔ legal_state s)
       ∧ (∀ s, s ∈ l →
            length s = 17%nat
            ∧ ∃ c, s !! 0%nat = Some (PStr c) ∧ c ∈ state_colors).
Proof.
  destruct states_legal as (l & Hl & Hnd & Hiff).
  exists l. split; [exact Hl |]. split; [exact Hnd |]. split; [exact Hiff |].
  intros s Hs. apply Hiff in Hs as (c & held & play & -> & Hc & Hh & Hp & _).
  split.
  - apply Forall2_length in Hh, Hp.
    unfold held_ceilings, playable_ceilings in Hh, Hp.
    cbn [length norm_cards spec_cards wild_cards norm_cards_play
           spec_cards_play app fmap list_fmap] in Hh, Hp.
    cbn [length]. rewrite length_fmap, length_app. lia.
  - exists c. split; [reflexivity | exact Hc].
Qed.

(** C7 as stated fails: the tuple [("RED", 0, ..., 0)] is returned by
    [states()], and its first component is a colour label, not a count. *)
Lemma states_not_counts_only :
  ∃ l, states = Some l ∧ ¬ (∀ s, s ∈ l ↔ counts_only_state s).
Proof.
  destruct states_legal as (l & Hl & _ & Hiff).
  exists l. split; [done |]. intros Hclaim.
  destruct (proj1 (Hclaim no_card_state)) as (held & play & Heq & _).
  { apply Hiff, no_card_state_legal. }
  destruct (held ++ play); discriminate.
Qed.

Lemma held_ceilings_length (held : list Z) :
  Forall2 (λ h m, 0 ≤ h ≤ m) held held_ceilings → length held = 9%nat.
Proof. intros H. apply Forall2_length in H. exact H. Qed.

Lemma playable_ceilings_length (play : list Z) :
  Forall2 (λ p m, 0 ≤ p ≤ m) play playable_ceilings → length play = 7%nat.
Proof. intros H. apply Forall2_length in H. exact H. Qed.

(** The reward table of the enumerated states exists. *)
Lemma rewards_states_Some :
  ∃ l R,
    states = Some l ∧ rewards l actions = Some R
    ∧ ∀ s, s ∈ l ↔ legal_state s.
Proof.
  destruct states_legal as (l & Hl & _ & Hiff).
  destruct (rewards_is_Some l actions) as [R HR].
  { apply Forall_forall. intros s Hs.
    apply Hiff in Hs as (c & held & play & -> & _ & Hh & _).
    apply held_ceilings_length in Hh.
    rewrite (state_t_counts c held play Hh). eexists. reflexivity. }
  exists l, R. split; [exact Hl |]. split; [exact HR | exact Hiff].
Qed.

(** C1, as amended.  In the table built by [rewards(states(), actions())],
    the reward of a state is the same for each of the 9 actions: it is 1
    when the nine held counts of the state sum to 0, and 0 otherwise. *)
Theorem rewards_one_iff_no_card_held :
  ∃ l R,
    states = Some l ∧ rewards l actions = Some R
    ∧ ∀ s, s ∈ l →
        ∃ (c : string) (held play : list Z),
          s = PStr c :: (PInt <$> held ++ play)
          ∧ length held = 9%nat ∧ length play = 7%nat
          ∧ ∀ a, a ∈ actions →
              loc R s a
              = Some (if bool_decide (sum_list_Z held = 0)
                      then 1%float else 0%float).
Proof.
  destruct rewards_states_Some as (l & R & Hl & HR & Hiff).
  exists l, R. split; [exact Hl |]. split; [exact HR |]. intros s Hs.
  pose proof Hs as Hleg.
  apply Hiff in Hleg as (c & held & play & -> & _ & Hh & Hp & _).
  apply held_ceilings_length in Hh. apply playable_ceilings_length in Hp.
  exists c, held, play.
  split; [reflexivity |]. split; [exact Hh |]. split; [exact Hp |].
  intros a Ha.
  destruct (rewards_loc _ _ _ _ _ HR Hs Ha) as (t & Ht & ->).
  rewrite (state_t_counts c held play Hh) in Ht. injection Ht as <-.
  f_equal. case_bool_decide as Hsum.
  - rewrite Hsum. reflexivity.
  - destruct (Z.eqb_spec (Z.min (sum_list_Z held) 1) 0) as [Hz |]; [lia |].
    reflexivity.
Qed.

(** C1 as stated fails: the state of a hand of one red card has held counts
    summing to 1, and its reward is 0 for every action. *)
Lemma rewards_not_one_at_sum_one :
  ∃ l R,
    states = Some l ∧ rewards l actions = Some R
    ∧ ¬ reward_rule_at_most_one l R.
Proof.
  destruct rewards_states_Some as (l & R & Hl & HR & Hiff).
  exists l, R. split; [exact Hl |]. split; [exact HR |]. intros Hclaim.
  assert (one_red_state ∈ l) as Hin by apply Hiff, one_red_state_legal.
  assert ("RED"%string ∈ actions) as Ha by left.
  destruct (rewards_loc _ _ _ _ _ HR Hin Ha) as (t & Ht & Hloc).
  unfold one_red_state in Ht, Hloc, Hin.
  rewrite (state_t_counts "RED" [1; 0; 0; 0; 0; 0; 0; 0; 0]
             [0; 0; 0; 0; 0; 0; 0] eq_refl) in Ht.
  injection Ht as <-.
  rewrite (Hclaim "RED"%string _ _ "RED"%string Hin eq_refl Ha) in Hloc.
  vm_compute in Hloc.
  apply (inj Some) in Hloc. apply float_zero_ne_one. symmetry. exact Hloc.
Qed.

(** ** The Q-learning agent *)

Example example_R_rewards : rewards example_states actions = Some example_R.
Proof. reflexivity. Qed.

(** A call of [update] that returns leaves the pair it was given as the
    previous pair. *)
Lemma QLearningAgent_update_records (self self' : QLearningAgent)
    (state_dict : list (string * pyval)) (action : string) :
  QLearningAgent_update self state_dict action = Some self' →
  prev_state self' = inr (state_of_dict state_dict)
  ∧ prev_action self' = inr action.
Proof.
  unfold QLearningAgent_update. intros H.
  apply bind_Some in H as (ag' & _ & H). by injection H as <-.
Qed.

(** The first call on a fresh agent ([prev_state] is the int 0) records the
    pair and leaves every table as it is. *)
Lemma QLearningAgent_update_fresh (self : QLearningAgent)
    (state_dict : list (string * pyval)) (action : string) :
  prev_state self = inl 0 →
  QLearningAgent_update self state_dict action
  = Some (mkQLearningAgent (ql_agent self)
            (inr (state_of_dict state_dict)) (inr action)).
Proof. intros H. unfold QLearningAgent_update. by rewrite H. Qed.

(** A call on an agent whose [prev_state] is not the int 0 raises at the
    first read of the branch. *)
Lemma QLearningAgent_update_prev (self : QLearningAgent)
    (state_dict : list (string * pyval)) (action : string) :
  prev_state_ne_0 (prev_state self) = true →
  QLearningAgent_update self state_dict action = None.
Proof.
  intros H. unfold QLearningAgent_update. rewrite H.
  by destruct (prev_labels self) as [[ps pa]|].
Qed.

(** C2 fails on the code.  A call of [QLearningAgent.update] that follows
    another call finds the pair of that call as the previous pair, takes the
    branch of the Bellman update and raises at its first statement, the read
    [self.q.loc[self.prev_state, self.prev_action]]: the entry of the
    previous pair is not assigned and its visit count does not go up.  With
    [prev_q = 0.2], [step_size = 0.1] and [r = 1] the entry stays 0.2 where
    the specification has 0.28. *)
Theorem QLearningAgent_update_after_first_raises (self self1 : QLearningAgent)
    (state_dict0 : list (string * pyval)) (action0 : string)
    (state_dict : list (string * pyval)) (action : string) :
  QLearningAgent_update self state_dict0 action0 = Some self1 →
  prev_state self1 = inr (state_of_dict state_dict0)
  ∧ prev_action self1 = inr action0
  ∧ QLearningAgent_update self1 state_dict action = None.
Proof.
  intros Hfirst. apply QLearningAgent_update_records in Hfirst as [Hps Hpa].
  split; [exact Hps |]. split; [exact Hpa |].
  apply QLearningAgent_update_prev. by rewrite Hps.
Qed.

(** The example of the specification: the entry of the previous pair is 0.2, the
    step size 0.1 and the reward of the pair passed 1; the call raises. *)
Lemma QLearningAgent_update_after_first_raises_witness :
  loc (q (example_agent 0.1 0.2)) one_red_state "RED" = Some 0.2%float
  ∧ step_size (example_agent 0.1 0.2) = 0.1%float
  ∧ loc (R (example_agent 0.1 0.2)) no_card_state "RED" = Some 1%float
  ∧ QLearningAgent_update
      (mkQLearningAgent (example_agent 0.1 0.2)
         (inr one_red_state) (inr "RED"%string))
      (dict_of_state no_card_state) "RED"
    = None.
Proof.
  split; [reflexivity |]. split; [reflexivity |]. split; [reflexivity |].
  exact (proj2 (proj2 (QLearningAgent_update_after_first_raises
           (mkQLearningAgent (example_agent 0.1 0.2) (inl 0) (inl 0))
           (mkQLearningAgent (example_agent 0.1 0.2)
              (inr one_red_state) (inr "RED"%string))
           (dict_of_state one_red_state) "RED"
           (dict_of_state no_card_state) "RED" eq_refl))).
Defined.



(** ** The Monte Carlo agent *)

(** The greedy branch of [MonteCarloAgent.step] gives no action: the scan
    raises, or, without a candidate, [action] is unbound. *)
Lemma MonteCarlo_scan_no_action (q0 : DataFrame) (state : State)
    (cands : list string) :
  (r ← MonteCarlo_scan q0 state cands; r.2) = None.
Proof. by destruct cands. Qed.

(** [MonteCarloAgent.update] raises at its first read and leaves the agent
    as it was, the buffers of the episode included. *)
Lemma MonteCarloAgent_update_raises (self : MonteCarloAgent)
    (state_dict : list (string * pyval)) (action : string) :
  MonteCarloAgent_update self state_dict action = (self, None).
Proof. reflexivity. Qed.

(** No call of [MonteCarloAgent.step] returns, and none changes a table. *)
Lemma MonteCarloAgent_step_raises (self : MonteCarloAgent) (rnd : Rand)
    (state_dict : list (string * pyval)) (actions_dict : list (string * Z)) :
  (MonteCarloAgent_step self rnd state_dict actions_dict).2 = None
  ∧ mc_agent (MonteCarloAgent_step self rnd state_dict actions_dict).1
    = mc_agent self.
Proof.
  unfold MonteCarloAgent_step.
  destruct (rnd_random rnd <? epsilon (mc_agent self))%float.
  - destruct (random_choice rnd (actions_possible actions_dict)) as [action|];
      [| done].
    by destruct (bool_decide _).
  - by rewrite MonteCarlo_scan_no_action.
Qed.

(** C5 fails on the code.  No call of [MonteCarloAgent.step] returns: the
    greedy branch raises at the read [self.q.loc[state, i]] and the
    exploring one, after the pair was appended to the buffers, at
    [self.visit.loc[state, action] += 1].  [MonteCarloAgent.update] raises
    at its first read, [self.R.loc[state, action]]: no Q-value is updated
    and the buffers are not cleared.  In the example of the specification,
    a single recorded pair of value 0.0 with step size 0.5 and terminal
    reward 1, the value stays 0.0 where the specification has 0.5, and the
    pair stays in the buffers. *)
Theorem MonteCarloAgent_episode_raises (self : MonteCarloAgent) (rnd : Rand)
    (state_dict : list (string * pyval)) (actions_dict : list (string * Z))
    (action : string) :
  (MonteCarloAgent_step self rnd state_dict actions_dict).2 = None
  ∧ MonteCarloAgent_update self state_dict action = (self, None)
  ∧ MonteCarloAgent_step (example_mc 0.5 0) example_rnd
      (dict_of_state one_red_state) [("RED"%string, 1)]
    = (example_mc_visited 1 0, None)
  ∧ state_seen (example_mc_visited 1 0) = [one_red_state]
  ∧ action_seen (example_mc_visited 1 0) = ["RED"%string]
  ∧ loc (q (mc_agent (example_mc_visited 1 0))) one_red_state "RED"
    = Some 0%float
  ∧ step_size (mc_agent (example_mc_visited 1 0)) = 0.5%float
  ∧ loc (R (mc_agent (example_mc_visited 1 0))) no_card_state "RED"
    = Some 1%float
  ∧ MonteCarloAgent_update (example_mc_visited 1 0)
      (dict_of_state no_card_state) "RED"
    = (example_mc_visited 1 0, None).
Proof.
  split; [apply MonteCarloAgent_step_raises |].
  split; [apply MonteCarloAgent_update_raises |].
  split_and!; reflexivity.
Qed.

(** C10.  [MonteCarloAgent.update] changes no entry of the Q-table outside
    the pairs recorded by [step], and leaves the reward table, [epsilon] and
    [step_size] as they are.  The call raises at its first read, before the
    loop over the first visits, so it changes no entry at all: every entry
    of the Q-table, of a recorded pair or not and of the terminal pair as
    well, is after the call what it was before. *)
Theorem MonteCarloAgent_update_frame (self : MonteCarloAgent)
    (state_dict : list (string * pyval)) (action : string) :
  let ag := mc_agent self in
  let ag' := mc_agent (MonteCarloAgent_update self state_dict action).1 in
  (∀ s a, loc (q ag') s a = loc (q ag) s a)
  ∧ q ag' = q ag
  ∧ R ag' = R ag
  ∧ epsilon ag' = epsilon ag
  ∧ step_size ag' = step_size ag.
Proof.
  intros ag ag'. subst ag'. rewrite MonteCarloAgent_update_raises.
  split_and!; reflexivity.
Qed.

(** On an agent with a recorded pair: the entry of the pair and the entry
    of the terminal pair are as before. *)
Example MonteCarloAgent_update_frame_example :
  let self' := (MonteCarloAgent_update (example_mc_visited 1 0)
                  (dict_of_state no_card_state) "RED").1 in
  loc (q (mc_agent self')) one_red_state "RED" = Some 0%float
  ∧ loc (q (mc_agent self')) no_card_state "RED" = Some 0%float
  ∧ R (mc_agent self') = example_R.
Proof. split_and!; reflexivity. Qed.

(** ** The deck *)

Lemma pop_snoc {A} (l : list A) (x : A) : pop (l ++ [x]) = Some (x, l).
Proof. unfold pop. rewrite last_snoc. cbn. by rewrite removelast_last. Qed.

(** A draw from a draw pile that has cards *)
Lemma Deck_draw_from_deck_top (self : Deck) (rest : list Card) (top : Card) :
  cards self = rest ++ [top] →
  Deck_draw_from_deck self = Some (top, mkDeck rest (cards_disc self)).
Proof.
  destruct self as [cs ds]. cbn [cards cards_disc]. intros ->.
  unfold Deck_draw_from_deck. cbn [cards cards_disc]. rewrite length_app.
  cbn [length].
  replace (length rest + 1 =? 0)%nat with false
    by (symmetry; apply Nat.eqb_neq; lia).
  cbn [cards cards_disc]. by rewrite pop_snoc.
Qed.

(** A draw from an empty draw pile: the discard pile is turned into the
    draw pile as it is *)
Lemma Deck_draw_from_deck_recycle (self : Deck) (rest : list Card) (top : Card) :
  cards self = [] → cards_disc self = rest ++ [top] →
  Deck_draw_from_deck self = Some (top, mkDeck rest []).
Proof.
  destruct self as [cs ds]. cbn [cards cards_disc]. intros -> ->.
  unfold Deck_draw_from_deck.
  cbn [length Nat.eqb cards cards_disc]. by rewrite pop_snoc.
Qed.

Lemma Deck_draw_from_deck_empty (self : Deck) :
  cards self = [] → cards_disc self = [] → Deck_draw_from_deck self = None.
Proof.
  destruct self as [cs ds]. cbn [cards cards_disc]. by intros -> ->.
Qed.

Lemma Deck_draw_from_deck_piles (self self' : Deck) (card : Card) :
  Deck_draw_from_deck self = Some (card, self') →
  (piles self' + 1 = piles self)%nat.
Proof.
  unfold piles. destruct self as [cs ds].
  destruct cs as [|c cs _] using rev_ind.
  - destruct ds as [|d ds _] using rev_ind.
    + by rewrite Deck_draw_from_deck_empty.
    + rewrite (Deck_draw_from_deck_recycle _ ds d) by done.
      intros [= <- <-]. cbn. rewrite length_app. cbn. lia.
  - rewrite (Deck_draw_from_deck_top _ cs c) by done.
    intros [= <- <-]. cbn. rewrite length_app. cbn. lia.
Qed.

Lemma Deck_draw_from_deck_is_Some (self : Deck) :
  is_Some (Deck_draw_from_deck self) ↔ (0 < piles self)%nat.
Proof.
  unfold piles. destruct self as [cs ds].
  destruct cs as [|c cs _] using rev_ind.
  - destruct ds as [|d ds _] using rev_ind.
    + rewrite Deck_draw_from_deck_empty by done. cbn.
      split; [by intros [? ?] | lia].
    + rewrite (Deck_draw_from_deck_recycle _ ds d) by done.
      cbn. rewrite length_app. cbn. split; [lia | by eexists].
  - rewrite (Deck_draw_from_deck_top _ cs c) by done.
    cbn. rewrite length_app. cbn. split; [lia | by eexists].
Qed.

(** C8, as amended.  [draw_from_deck] returns a card exactly when one of
    the two piles has a card.  From a draw pile with cards it takes the top
    (last) card and leaves the discard pile; from an empty draw pile it
    makes the discard pile the draw pile, in the order it has, empties the
    discard pile and takes the top card of the recycled pile.  With both
    piles empty the call raises. *)
Theorem Deck_draw_from_deck_spec (self : Deck) :
  (∀ rest top, cards self = rest ++ [top] →
     Deck_draw_from_deck self = Some (top, mkDeck rest (cards_disc self)))
  ∧ (∀ rest top, cards self = [] → cards_disc self = rest ++ [top] →
       Deck_draw_from_deck self = Some (top, mkDeck rest []))
  ∧ (cards self = [] → cards_disc self = [] →
       Deck_draw_from_deck self = None)
  ∧ (is_Some (Deck_draw_from_deck self)
     ↔ cards self ≠ [] ∨ cards_disc self ≠ []).
Proof.
  split_and!.
  - apply Deck_draw_from_deck_top.
  - apply Deck_draw_from_deck_recycle.
  - apply Deck_draw_from_deck_empty.
  - rewrite Deck_draw_from_deck_is_Some. unfold piles.
    destruct (cards self), (cards_disc self); cbn; split;
      (lia || (intros [? | ?]; done) || (intros _; (by left) || by right)).
Qed.

(** C8 as stated fails: a draw with both piles empty raises IndexError. *)
Lemma Deck_draw_from_deck_can_fail :
  Deck_draw_from_deck (mkDeck [] []) = None
  ∧ ¬ (∀ self, is_Some (Deck_draw_from_deck self)).
Proof.
  split; [reflexivity |]. intros H. by destruct (H (mkDeck [] [])).
Qed.

Example draw_recycles_in_order :
  Deck_draw_from_deck
    (mkDeck [] [mkCard (PStr "RED") (PInt 1); mkCard (PStr "BLU") (PInt 2)])
  = Some (mkCard (PStr "BLU") (PInt 2),
          mkDeck [mkCard (PStr "RED") (PInt 1)] []).
Proof. reflexivity. Qed.







(** The loop of [start_up] ends on a normal card; the candidates it
    rejected have left the piles. *)
Lemma start_up_loop_spec (fuel : nat) :
  ∀ (d d' : Deck) (card_open card_open' : Card),
    start_up_loop fuel d card_open = Some (card_open', d') →
    in_range_0_10 (value card_open') = true
    ∧ ∃ rejected : list Card,
        Forall not_normal rejected
        ∧ (piles d' + length rejected = piles d)%nat
        ∧ (rejected = [] → card_open' = card_open ∧ d' = d).
Proof.
  induction fuel as [|fuel IH]; intros d d' card_open card_open' H.
  - cbn [start_up_loop] in H.
    destruct (in_range_0_10 (value card_open)) eqn:Hr; [| done].
    injection H as <- <-. split; [done |]. exists []. cbn. split_and!; try done; lia.
  - cbn [start_up_loop] in H.
    destruct (in_range_0_10 (value card_open)) eqn:Hr.
    + injection H as <- <-. split; [done |]. exists []. cbn.
      split_and!; try done; lia.
    + apply bind_Some in H as ([card d1] & Hdraw & H).
      apply Deck_draw_from_deck_piles in Hdraw.
      apply IH in H as (Hin & rejected & Hrej & Hpiles & _).
      split; [done |]. exists (card_open :: rejected).
      split_and!; [by constructor | cbn; lia | done].
Qed.

(** The fuel given by [Turn_start_up] is never what ends the loop. *)
Lemma start_up_loop_fuel (n : nat) :
  ∀ (fuel : nat) (d : Deck) (card_open : Card),
    (piles d ≤ n)%nat → (n < fuel)%nat →
    start_up_loop fuel d card_open = start_up_loop (S n) d card_open.
Proof.
  induction n as [|n IH]; intros fuel d card_open Hd Hf;
    (destruct fuel as [|fuel]; [lia |]); cbn [start_up_loop];
    destruct (in_range_0_10 (value card_open)); try done;
    destruct (Deck_draw_from_deck d) as [[card d1]|] eqn:Hdraw; try done;
    apply Deck_draw_from_deck_piles in Hdraw; [lia |].
  cbn [mbind option_bind]. apply IH; lia.
Qed.


(** ** The penalty chain *)












(** The opponent counters once and the player cannot: the counter is 2 and
    the player draws four cards. *)
Example action_plus_one_counter :
  (λ c, (ch_count c, length (hand (ch_act c)), length (hand (ch_pas c)),
         piles (ch_deck c)))
    <$> Turn_action_plus example_deck example_plus2 example_player
          example_opponent_plus2 2
  = Some (2, 5%nat, 1%nat, 2%nat).
Proof. reflexivity. Qed.

(** The counter of the opponent is its last card: the chain returns and
    nobody draws. *)
Example action_plus_win_in_chain :
  (λ c, (ch_count c, length (hand (ch_act c)), length (hand (ch_pas c)),
         piles (ch_deck c)))
    <$> Turn_action_plus example_deck example_plus2 example_player
          (mkPlayer "P2" [mkCard (PStr "BLU") (PStr "PL2")] []
             (mkCard (PInt 0) (PInt 0))) 2
  = Some (2, 1%nat, 0%nat, 6%nat).
Proof. reflexivity. Qed.

(** ** Cards in play *)








(** ** The game loop *)

Lemma parity_step (z : Z) :
  ((z + 1) `mod` 2 =? 1) = negb (z `mod` 2 =? 1)
  ∧ ((z + 1) `mod` 2 =? 0) = negb (z `mod` 2 =? 0).
Proof.
  split;
    destruct (Z.eqb_spec ((z + 1) `mod` 2) 1), (Z.eqb_spec (z `mod` 2) 1),
      (Z.eqb_spec ((z + 1) `mod` 2) 0), (Z.eqb_spec (z `mod` 2) 0);
    try done; exfalso; Z.div_mod_to_equations; lia.
Qed.

Lemma active_player_next (starting_name player_1_name : string) (turn_no : Z) :
  active_player starting_name player_1_name (turn_no + 1)
  ≠ active_player starting_name player_1_name turn_no.
Proof.
  unfold active_player. destruct (parity_step turn_no) as [-> ->].
  case_bool_decide;
    [destruct (turn_no `mod` 2 =? 1) | destruct (turn_no `mod` 2 =? 0)];
    discriminate.
Qed.

(** C3 fails on the code for skip cards.  [Deck.build] gives them the value
    "SKI" while the game loop tests the value against "REV" and "SKIP": after
    a skip card (no penalty chain, the counter is 0) the round number is not
    taken back and the other player is active next.  A reverse card, and an
    even positive counter, do give the same player the next round. *)
Theorem Game_skip_card_alternates :
  mkCard (PStr "RED") (PStr "SKI") ∈ cards_all
  ∧ Forall (λ c, value c ≠ PStr "SKIP") cards_all
  ∧ (∀ starting_name player_1_name turn_no colour,
       active_player starting_name player_1_name
         (next_turn_no turn_no (mkCard colour (PStr "SKI")) 0)
       ≠ active_player starting_name player_1_name turn_no)
  ∧ (∀ starting_name player_1_name turn_no colour,
       active_player starting_name player_1_name
         (next_turn_no turn_no (mkCard colour (PStr "REV")) 0)
       = active_player starting_name player_1_name turn_no)
  ∧ (∀ starting_name player_1_name turn_no colour,
       active_player starting_name player_1_name
         (next_turn_no turn_no (mkCard colour (PStr "PL2")) 2)
       = active_player starting_name player_1_name turn_no).
Proof.
  split_and!.
  - unfold cards_all. rewrite !elem_of_app. right. left. left.
  - apply (bool_decide_unpack (Forall (λ c, value c ≠ PStr "SKIP") cards_all)).
    by vm_compute.
  - intros starting_name player_1_name turn_no colour.
    replace (next_turn_no turn_no (mkCard colour (PStr "SKI")) 0)
      with (turn_no + 1) by reflexivity.
    apply active_player_next.
  - intros starting_name player_1_name turn_no colour.
    replace (next_turn_no turn_no (mkCard colour (PStr "REV")) 0)
      with (turn_no - 1 + 1) by reflexivity.
    f_equal. lia.
  - intros starting_name player_1_name turn_no colour.
    replace (next_turn_no turn_no (mkCard colour (PStr "PL2")) 2)
      with (turn_no - 1 + 1) by reflexivity.
    f_equal. lia.
Qed.

(** ** The agents as the tournament makes them *)

Lemma loc_zeros (sts : list State) (acts : list string) (s : State) (a : string) :
  s ∈ sts → a ∈ acts →
  loc (mkDataFrame (zeros (length sts) (length acts)) acts sts) s a
  = Some 0%float.
Proof.
  intros Hs Ha. unfold loc. cbn [index columns data].
  destruct (get_loc_is_Some _ _ Hs) as [i Hi].
  destruct (get_loc_is_Some _ _ Ha) as [j Hj].
  rewrite Hi, Hj. cbn [mbind option_bind]. unfold zeros.
  rewrite lookup_replicate_2 by by eapply get_loc_lt.
  cbn [mbind option_bind]. apply lookup_replicate_2. by eapply get_loc_lt.
Qed.

(** [Agent.__init__] succeeds: the tables are well formed, with an entry 0
    for every legal state and every action. *)
Lemma Agent_init_wf (eps step : float) :
  ∃ ag,
    Agent_init eps step = Some ag
    ∧ agent_wf ag
    ∧ epsilon ag = eps ∧ step_size ag = step
    ∧ ∀ s a, legal_state s → a ∈ actions →
        loc (q ag) s a = Some 0%float ∧ loc (visit ag) s a = Some 0%float.
Proof.
  destruct rewards_states_Some as (l & R & Hl & HR & Hiff).
  exists (mkAgent eps step l actions R
            (mkDataFrame (zeros (length l) (length actions)) actions l)
            (mkDataFrame (zeros (length l) (length actions)) actions l)).
  split.
  { unfold Agent_init. rewrite Hl. cbn [mbind option_bind].
    rewrite HR. reflexivity. }
  cbn [q visit epsilon step_size].
  split; [split; [apply zeros_wf | split; reflexivity] |].
  split; [reflexivity |]. split; [reflexivity |].
  intros s a Hs Ha. apply Hiff in Hs.
  split; apply loc_zeros; assumption.
Qed.

(** The first call of [update] in the life of a Q-learning agent only
    records its pair. *)
Lemma QLearningAgent_init_first_update (eps step : float)
    (state_dict : list (string * pyval)) (action : string) :
  ∃ self,
    QLearningAgent_init eps step = Some self
    ∧ QLearningAgent_update self state_dict action
      = Some (mkQLearningAgent (ql_agent self)
                (inr (state_of_dict state_dict)) (inr action)).
Proof.
  destruct (Agent_init_wf eps step) as (ag & Hag & _).
  eexists. unfold QLearningAgent_init. rewrite Hag. cbn [mbind option_bind].
  split; [reflexivity |]. by apply QLearningAgent_update_fresh.
Qed.

(** ** The size of the state space *)

Lemma length_filter_cons_fmap {A} (Q : list A → Prop) `{∀ t, Decision (Q t)}
    (x : A) (L : list (list A)) :
  length (filter Q ((λ t, x :: t) <$> L))
  = length (filter (λ t, Q (x :: t)) L).
Proof.
  induction L as [|t L IH]; [done |].
  rewrite fmap_cons, !filter_cons.
  destruct (decide (Q (x :: t))); cbn [length]; by rewrite IH.
Qed.

Lemma length_filter_ext {A} (P Q : A → Prop) `{∀ t, Decision (P t)}
    `{∀ t, Decision (Q t)} (l : list A) :
  (∀ t, P t ↔ Q t) → length (filter P l) = length (filter Q l).
Proof.
  intros Hiff. induction l as [|t l IH]; [done |].
  rewrite !filter_cons.
  destruct (decide (P t)) as [HP | HP], (decide (Q t)) as [HQ | HQ];
    cbn [length]; rewrite ?IH; try done; exfalso;
    pose proof (Hiff t); tauto.
Qed.

Lemma count_product_filter {A} (P : list A → Prop) `{∀ t, Decision (P t)}
    (axes : list (list A)) :
  ∀ pre : list A,
    Z.of_nat (length (filter (λ t, P (pre ++ t)) (product axes)))
    = count_product (λ t, bool_decide (P t)) axes (reverse pre).
Proof.
  induction axes as [|ax axes IH]; intros pre.
  - cbn [product count_product]. rewrite reverse_involutive.
    rewrite filter_cons, filter_nil, app_nil_r.
    rewrite bool_decide_decide. by destruct (decide (P pre)).
  - cbn [product count_product].
    induction ax as [|x ax IHax]; [done |].
    rewrite bind_cons, filter_app, length_app, Nat2Z.inj_add.
    cbn [foldr]. rewrite IHax. f_equal.
    rewrite length_filter_cons_fmap.
    rewrite <- reverse_snoc, <- IH. f_equal.
    apply length_filter_ext. intros t. by rewrite <- app_assoc.
Qed.

Lemma states_count :
  count_product (λ t, bool_decide (all_ge t state_constraints = Some true))
    state_axes []
  = 270000.
Proof. vm_compute. reflexivity. Qed.

(** X1.  [states()] returns 270000 tuples (4 colours, 5 pairs of held and
    playable count for each normal colour, 3 for each special type, 2 held
    counts for each wild type), so that the tables of an agent have 270000
    rows. *)
Theorem states_length :
  ∃ l, states = Some l ∧ Z.of_nat (length l) = 270000.
Proof.
  eexists. split; [exact states_filter |].
  exact (eq_trans
           (count_product_filter (λ t, all_ge t state_constraints = Some true)
              state_axes [])
           states_count).
Qed.

(** ** The reward table of any list of states *)

Lemma py_sum_None (xs : list pyval) :
  py_sum xs = None ↔ ∃ c, PStr c ∈ xs.
Proof.
  induction xs as [|[z | c] xs IH]; cbn [py_sum].
  - split; [done |]. intros [c Hc]. inversion Hc.
  - rewrite fmap_None, IH. split; intros [c Hc]; exists c.
    + by right.
    + apply elem_of_cons in Hc as [Hc | Hc]; [discriminate Hc | done].
  - split; [| done]. intros _. exists c. left.
Qed.

Lemma get_loc_None {A} `{EqDecision A} (x : A) (labels : list A) :
  x ∉ labels → get_loc x labels = None.
Proof.
  intros Hx. unfold get_loc. apply fmap_None, list_find_None.
  apply Forall_forall. intros y Hy ->. done.
Qed.

(** A label that the table lacks: KeyError *)
Lemma loc_None_labels (df : DataFrame) (s : State) (a : string) :
  s ∉ index df ∨ a ∉ columns df → loc df s a = None.
Proof.
  unfold loc. intros [Hs | Ha].
  - by rewrite (get_loc_None _ _ Hs).
  - rewrite (get_loc_None _ _ Ha). by destruct (get_loc s (index df)).
Qed.

(** X2.  [rewards(states, actions)] raises (TypeError, from [sum]) exactly
    when some state has a string among its components 1 to 9; the
    component 0 and the components from 10 on are never read. *)
Theorem rewards_raises_iff (sts : list State) (acts : list string) :
  rewards sts acts = None
  ↔ ∃ s c, s ∈ sts ∧ PStr c ∈ py_slice s 1 10.
Proof.
  split.
  - intros Hnone.
    destruct (decide (Forall (λ s, is_Some (state_t s)) sts)) as [Hall | Hex].
    { destruct (rewards_is_Some sts acts Hall) as [R HR]. congruence. }
    apply not_Forall_Exists in Hex; [| apply _].
    apply Exists_exists in Hex as (s & Hs & Hnot).
    exists s. unfold compose, state_t in Hnot.
    destruct (py_sum (py_slice s 1 10)) eqn:Hsum.
    { exfalso. apply Hnot. by eexists. }
    apply py_sum_None in Hsum as [c Hc]. by exists c.
  - intros (s & c & Hs & Hc).
    destruct (rewards sts acts) as [R|] eqn:HR; [| done]. exfalso.
    unfold rewards in HR. apply bind_Some in HR as (ts & Hts & _).
    apply mapM_Some in Hts.
    apply list_elem_of_lookup in Hs as [i Hi].
    destruct (Forall2_lookup_l _ _ _ _ _ Hts Hi) as (t & _ & Ht).
    unfold state_t in Ht. apply fmap_Some in Ht as (z & Hz & _).
    assert (py_sum (py_slice s 1 10) = None) as Hnone
      by (apply py_sum_None; by exists c).
    congruence.
Qed.

(** X3.  For states and actions without repeated labels, the table of
    [rewards] is labelled by them, every row is constant, 1.0 when the
    components 1 to 9 of the state sum to 0 and 0.0 otherwise (a negative
    sum included), and a read under any other label raises KeyError. *)
Theorem rewards_table (sts : list State) (acts : list string) (R : DataFrame) :
  NoDup sts → NoDup acts →
  rewards sts acts = Some R →
  index R = sts ∧ columns R = acts
  ∧ (∀ s a, s ∈ sts → a ∈ acts →
       ∃ z, py_sum (py_slice s 1 10) = Some z
            ∧ loc R s a = Some (if z =? 0 then 1%float else 0%float))
  ∧ (∀ s a, s ∉ sts ∨ a ∉ acts → loc R s a = None).
Proof.
  intros _ _ HR.
  assert (index R = sts ∧ columns R = acts) as [Hi Hc].
  { unfold rewards in HR. apply bind_Some in HR as (ts & _ & HR).
    apply bind_Some in HR as (R' & _ & HR). by injection HR as <-. }
  split; [exact Hi |]. split; [exact Hc |]. split.
  - intros s a Hs Ha.
    destruct (rewards_loc _ _ _ _ _ HR Hs Ha) as (t & Ht & ->).
    unfold state_t in Ht. apply fmap_Some in Ht as (z & Hz & ->).
    exists z. split; [exact Hz |]. f_equal.
    destruct (Z.eqb_spec (Z.min z 1) 0), (Z.eqb_spec z 0); try done; lia.
  - intros s a Hsa. apply loc_None_labels. by rewrite Hi, Hc.
Qed.

Lemma rewards_table_witness :
  ∃ R,
    rewards example_states actions = Some R
    ∧ loc R no_card_state "PL4" = Some 1%float
    ∧ loc R one_red_state "PL4" = Some 0%float
    ∧ loc R [PStr "RED"] "PL4" = None.
Proof.
  exists example_R.
  assert (NoDup example_states) as Hs
    by (apply (bool_decide_unpack (NoDup example_states)); by vm_compute).
  assert (NoDup actions) as Ha
    by (apply (bool_decide_unpack (NoDup actions)); by vm_compute).
  destruct (rewards_table example_states actions example_R Hs Ha eq_refl)
    as (_ & _ & Hin & Hout).
  split; [reflexivity |]. split_and!.
  - destruct (Hin no_card_state "PL4"%string) as (z & Hz & ->).
    + apply (bool_decide_unpack (no_card_state ∈ example_states)).
      by vm_compute.
    + apply (bool_decide_unpack ("PL4"%string ∈ actions)). by vm_compute.
    + vm_compute in Hz. by injection Hz as <-.
  - destruct (Hin one_red_state "PL4"%string) as (z & Hz & ->).
    + apply (bool_decide_unpack (one_red_state ∈ example_states)).
      by vm_compute.
    + apply (bool_decide_unpack ("PL4"%string ∈ actions)). by vm_compute.
    + vm_compute in Hz. by injection Hz as <-.
  - apply Hout. left.
    apply (bool_decide_unpack ([PStr "RED"] ∉ example_states)). by vm_compute.
Defined.

(** ** The tables of a new agent *)

Lemma Agent_init_eq (eps step : float) :
  ∃ l R,
    states = Some l ∧ rewards l actions = Some R
    ∧ (∀ s, s ∈ l ↔ legal_state s)
    ∧ Z.of_nat (length l) = 270000
    ∧ Agent_init eps step
      = Some (mkAgent eps step l actions R
                (mkDataFrame (zeros (length l) (length actions)) actions l)
                (mkDataFrame (zeros (length l) (length actions)) actions l)).
Proof.
  destruct rewards_states_Some as (l & R & Hl & HR & Hiff).
  exists l, R. split; [exact Hl |]. split; [exact HR |]. split; [exact Hiff |].
  split.
  - pose proof states_filter as Hf. rewrite Hl in Hf.
    apply (inj Some) in Hf. rewrite Hf.
    exact (eq_trans
             (count_product_filter
                (λ t, all_ge t state_constraints = Some true) state_axes [])
             states_count).
  - unfold Agent_init. rewrite Hl. cbn [mbind option_bind].
    rewrite HR. reflexivity.
Qed.

(** X4.  [Agent.__init__] takes any [epsilon] and [step_size] as they come
    (nothing is checked) and builds the Q-table and the visit table with
    270000 rows and the 9 action columns: every entry of a tuple of
    [states()] and an action reads 0.0, and a read under any other state or
    action raises KeyError. *)
Theorem Agent_init_tables (eps step : float) :
  ∃ ag,
    Agent_init eps step = Some ag
    ∧ epsilon ag = eps ∧ step_size ag = step
    ∧ Z.of_nat (length (data (q ag))) = 270000
    ∧ Z.of_nat (length (data (visit ag))) = 270000
    ∧ columns (q ag) = actions ∧ columns (visit ag) = actions
    ∧ (∀ s a, legal_state s → a ∈ actions →
         loc (q ag) s a = Some 0%float ∧ loc (visit ag) s a = Some 0%float)
    ∧ (∀ s a, ¬ legal_state s ∨ a ∉ actions →
         loc (q ag) s a = None ∧ loc (visit ag) s a = None).
Proof.
  destruct (Agent_init_eq eps step) as (l & R & Hl & HR & Hiff & Hlen & Hag).
  eexists. split; [exact Hag |].
  cbn [epsilon step_size q visit data columns].
  split; [reflexivity |]. split; [reflexivity |].
  unfold zeros at 1 2. rewrite !length_replicate.
  split; [exact Hlen |]. split; [exact Hlen |].
  split; [reflexivity |]. split; [reflexivity |]. split.
  - intros s a Hs Ha. apply Hiff in Hs. split; by apply loc_zeros.
  - intros s a Hsa.
    assert (s ∉ l ∨ a ∉ actions) as Hsa'.
    { destruct Hsa as [Hs | Ha]; [left | by right]. by rewrite Hiff. }
    split; by apply loc_None_labels.
Qed.

(** ** Errors and frame of [QLearningAgent.update] *)

(** X5.  [QLearningAgent.update] returns exactly when [prev_state] is the
    int 0 that [__init__] puts there: on an agent that holds a previous
    pair the call raises, whatever it is given.  As a call that returns
    records a pair, only the first call in the life of an agent returns. *)
Theorem QLearningAgent_update_returns_iff (self : QLearningAgent)
    (state_dict : list (string * pyval)) (action : string) :
  is_Some (QLearningAgent_update self state_dict action)
  ↔ prev_state self = inl 0.
Proof.
  split.
  - intros [self' H].
    destruct (prev_state_ne_0 (prev_state self)) eqn:Hne.
    + by rewrite QLearningAgent_update_prev in H.
    + destruct (prev_state self) as [z|]; [| done]. cbn in Hne.
      apply negb_false_iff, Z.eqb_eq in Hne. by subst z.
  - intros H. rewrite QLearningAgent_update_fresh by done. by eexists.
Qed.

(** X6.  The first call of [update] on a new agent reads no table: it
    succeeds for any state and action, known to the tables or not, and
    changes nothing but the previous pair.  A pair without an entry in the
    Q-table that was recorded this way makes the next call raise KeyError,
    whatever that call is given. *)
Theorem QLearningAgent_update_unknown_first (self : QLearningAgent)
    (state_dict state_dict' : list (string * pyval)) (action action' : string) :
  prev_state self = inl 0 →
  loc (q (ql_agent self)) (state_of_dict state_dict) action = None →
  ∃ self1,
    QLearningAgent_update self state_dict action = Some self1
    ∧ ql_agent self1 = ql_agent self
    ∧ QLearningAgent_update self1 state_dict' action' = None.
Proof.
  intros Hfresh Hnone. eexists.
  split; [by apply QLearningAgent_update_fresh |]. split; [reflexivity |].
  by apply QLearningAgent_update_prev.
Qed.

Lemma QLearningAgent_update_unknown_first_witness :
  ∃ self1,
    QLearningAgent_update
      (mkQLearningAgent (example_agent 0.1 0) (inl 0) (inl 0))
      (dict_of_state unknown_state) "RED"
    = Some self1
    ∧ ql_agent self1 = example_agent 0.1 0
    ∧ QLearningAgent_update self1 (dict_of_state no_card_state) "RED" = None.
Proof.
  apply (QLearningAgent_update_unknown_first
           (mkQLearningAgent (example_agent 0.1 0) (inl 0) (inl 0))
           (dict_of_state unknown_state) (dict_of_state no_card_state)
           "RED" "RED"); reflexivity.
Defined.

(** X7.  A call of [QLearningAgent.update] that returns was made on an
    agent without a previous pair and assigns to no table: the reward
    table, the Q-table, the visit table, [epsilon], [step_size], the states
    and the actions are as they were, and the pair passed is the new
    previous pair. *)
Theorem QLearningAgent_update_frame (self self' : QLearningAgent)
    (state_dict : list (string * pyval)) (action : string) :
  QLearningAgent_update self state_dict action = Some self' →
  prev_state self = inl 0
  ∧ ql_agent self' = ql_agent self
  ∧ prev_state self' = inr (state_of_dict state_dict)
  ∧ prev_action self' = inr action.
Proof.
  intros H.
  assert (prev_state self = inl 0) as Hfresh.
  { destruct (prev_state_ne_0 (prev_state self)) eqn:Hne.
    - by rewrite QLearningAgent_update_prev in H.
    - destruct (prev_state self) as [z|]; [| done]. cbn in Hne.
      apply negb_false_iff, Z.eqb_eq in Hne. by subst z. }
  split; [exact Hfresh |].
  rewrite (QLearningAgent_update_fresh _ _ _ Hfresh) in H.
  by injection H as <-.
Qed.

Lemma QLearningAgent_update_frame_witness :
  QLearningAgent_update
    (mkQLearningAgent (example_agent 0.1 0) (inl 0) (inl 0))
    (dict_of_state one_red_state) "RED"
  = Some (mkQLearningAgent (example_agent 0.1 0)
            (inr one_red_state) (inr "RED"%string))
  ∧ ql_agent (mkQLearningAgent (example_agent 0.1 0)
                (inr one_red_state) (inr "RED"%string))
    = example_agent 0.1 0.
Proof.
  split; [reflexivity |].
  exact (proj1 (proj2 (QLearningAgent_update_frame
           (mkQLearningAgent (example_agent 0.1 0) (inl 0) (inl 0))
           (mkQLearningAgent (example_agent 0.1 0)
              (inr one_red_state) (inr "RED"%string))
           (dict_of_state one_red_state) "RED" eq_refl))).
Defined.

(** ** The choice of an action *)

Lemma elem_of_actions_possible (actions_dict : list (string * Z)) (a : string) :
  a ∈ actions_possible actions_dict ↔ ∃ val, (a, val) ∈ actions_dict ∧ val ≠ 0.
Proof.
  unfold actions_possible. rewrite list_elem_of_fmap. split.
  - intros ([k val] & -> & Hin). apply list_elem_of_filter in Hin as [Hne Hin].
    by exists val.
  - intros (val & Hin & Hne). exists (a, val). split; [done |].
    by apply list_elem_of_filter.
Qed.

(** The scan from any running maximum: either no candidate passes the test
    [val >= val_max], or the result is the last candidate that passed it. *)
Lemma greedy_fold_spec (q0 : DataFrame) (state : State) (cands : list string) :
  ∀ acc res : float * option string,
    foldM (λ (acc : float * option string) i,
        val ← loc q0 state i;
        Some (if (acc.1 <=? val)%float then (val, Some i) else acc))
      acc cands
    = Some res →
    (res = acc
     ∧ Forall (λ b, ∃ vb, loc q0 state b = Some vb
                          ∧ (acc.1 <=? vb)%float = false) cands)
    ∨ ∃ pre a post,
        cands = pre ++ a :: post
        ∧ res.2 = Some a
        ∧ loc q0 state a = Some res.1
        ∧ Forall (λ b, ∃ vb, loc q0 state b = Some vb
                             ∧ (res.1 <=? vb)%float = false) post.
Proof.
  induction cands as [|x cands IH]; intros acc res H.
  - injection H as <-. left. split; [done | constructor].
  - cbn [foldM] in H. apply bind_Some in H as (acc' & Hacc' & H).
    apply bind_Some in Hacc' as (val & Hval & Hacc'). injection Hacc' as <-.
    destruct (acc.1 <=? val)%float eqn:Hle.
    + destruct (IH _ _ H) as [[-> Hall] | (pre & a & post & -> & Ha & Hv & Hpost)].
      * right. exists [], x, cands. split_and!; done.
      * right. exists (x :: pre), a, post. split_and!; done.
    + destruct (IH _ _ H) as [[-> Hall] | (pre & a & post & -> & Ha & Hv & Hpost)].
      * left. split; [done |]. constructor; [| done]. by exists val.
      * right. exists (x :: pre), a, post. split_and!; done.
Qed.



(** X9.  The greedy scan of [QLearningAgent.step], which reads
    [self.q.loc[[state], i].iloc[0]], raises KeyError exactly when the
    Q-table has no entry for the state and one of the candidates; it reads
    the entry of every candidate, whatever the values met before. *)
Theorem greedy_scan_raises_iff (q0 : DataFrame) (state : State)
    (cands : list string) :
  greedy_scan q0 state cands = None
  ↔ ∃ b, b ∈ cands ∧ loc q0 state b = None.
Proof.
  unfold greedy_scan. generalize (neg_infinity, @None string).
  induction cands as [|x cands IH]; intros acc.
  - split; [done |]. intros (b & Hb & _). inversion Hb.
  - cbn [foldM]. destruct (loc q0 state x) as [val|] eqn:Hval;
      cbn [mbind option_bind].
    + rewrite IH. split; intros (b & Hb & Hnone); exists b.
      * split; [by right | done].
      * apply elem_of_cons in Hb as [-> | Hb]; [congruence | done].
    + split; [| done]. intros _. exists x. split; [left | done].
Qed.

(** The choice made by [QLearningAgent.step] is an action of the dict with
    a non-zero value, or an exception. *)
Lemma choice_legal (rnd : Rand) (q0 : DataFrame) (eps : float) (state : State)
    (actions_dict : list (string * Z)) (action : string) :
  (∀ l, rnd_shuffle rnd l ≡ₚ l) →
  (if (rnd_random rnd <? eps)%float then
     random_choice rnd (actions_possible actions_dict)
   else
     r ← greedy_scan q0 state (rnd_shuffle rnd (actions_possible actions_dict));
     r.2)
  = Some action →
  action ∈ actions_possible actions_dict.
Proof.
  intros Hperm H. destruct (rnd_random rnd <? eps)%float.
  - unfold random_choice in H. by eapply list_elem_of_lookup_2.
  - apply bind_Some in H as ([val_max a] & Hscan & Ha). cbn [snd] in Ha.
    subst a. apply greedy_fold_spec in Hscan
      as [[[= ] _] | (pre & a & post & Heq & [= <-] & _)].
    rewrite <- (Hperm (actions_possible actions_dict)), Heq.
    rewrite elem_of_app. right. left.
Qed.

Lemma choice_none (rnd : Rand) (q0 : DataFrame) (eps : float) (state : State)
    (actions_dict : list (string * Z)) :
  (∀ l, rnd_shuffle rnd l ≡ₚ l) →
  actions_possible actions_dict = [] →
  (if (rnd_random rnd <? eps)%float then
     random_choice rnd (actions_possible actions_dict)
   else
     r ← greedy_scan q0 state (rnd_shuffle rnd (actions_possible actions_dict));
     r.2)
  = None.
Proof.
  intros Hperm ->. destruct (rnd_random rnd <? eps)%float; [done |].
  pose proof (Hperm []) as Hnil. apply Permutation_nil_r in Hnil.
  by rewrite Hnil.
Qed.

Lemma actions_possible_nil (actions_dict : list (string * Z)) :
  (∀ key val, (key, val) ∈ actions_dict → val = 0) →
  actions_possible actions_dict = [].
Proof.
  intros Hzero. destruct (actions_possible actions_dict) as [|a l] eqn:Hl;
    [done |].
  assert (a ∈ actions_possible actions_dict) as Ha by (rewrite Hl; left).
  apply elem_of_actions_possible in Ha as (val & Hin & Hne).
  by apply Hzero in Hin.
Qed.

(** X10.  [QLearningAgent.step], for any outcome of the random calls (the
    shuffle being a permutation): the action returned is a key of
    [actions_dict] with a non-zero value, and when every value of the dict
    is 0 (or the dict is empty) the call raises, by [random.choice] on an
    empty list or by the unbound [action]. *)
Theorem QLearningAgent_step_legal (self : QLearningAgent) (rnd : Rand)
    (state_dict : list (string * pyval)) (actions_dict : list (string * Z)) :
  (∀ l, rnd_shuffle rnd l ≡ₚ l) →
  (∀ action,
     QLearningAgent_step self rnd state_dict actions_dict = Some action →
     ∃ val, (action, val) ∈ actions_dict ∧ val ≠ 0)
  ∧ ((∀ key val, (key, val) ∈ actions_dict → val = 0) →
     QLearningAgent_step self rnd state_dict actions_dict = None).
Proof.
  intros Hperm. split.
  - intros action H. apply elem_of_actions_possible.
    by eapply choice_legal.
  - intros Hzero. apply choice_none; [done |]. by apply actions_possible_nil.
Qed.

Lemma QLearningAgent_step_legal_witness :
  QLearningAgent_step
    (mkQLearningAgent (example_agent 0.1 0.2) (inl 0) (inl 0))
    (mkRand 0.5 0 (λ l, l)) (dict_of_state one_red_state)
    [("RED", 1); ("GRE", 0); ("PL4", 2)]%string
  = Some "RED"%string
  ∧ QLearningAgent_step
      (mkQLearningAgent (example_agent 0.1 0.2) (inl 0) (inl 0))
      (mkRand 0.5 0 (λ l, l)) (dict_of_state one_red_state)
      [("RED", 0); ("GRE", 0)]%string
    = None.
Proof.
  split; [reflexivity |].
  apply (QLearningAgent_step_legal
           (mkQLearningAgent (example_agent 0.1 0.2) (inl 0) (inl 0))
           (mkRand 0.5 0 (λ l, l)) (dict_of_state one_red_state)
           [("RED", 0); ("GRE", 0)]%string).
  - reflexivity.
  - intros key val Hin.
    repeat (apply elem_of_cons in Hin as [[= _ <-] | Hin]; [reflexivity |]).
    inversion Hin.
Defined.

(** ** What a call of [MonteCarloAgent.step] leaves behind *)

(** X11.  No call of [MonteCarloAgent.step] returns, and none changes a
    table of the agent, the visit counts included.  A call that explores
    and has an action to choose from raises at
    [self.visit.loc[state, action] += 1], after the buffers were written:
    the pair is appended to [q_seen], and to the lists of first visits when
    [q_seen] did not hold it.  Every other call, so every greedy one, raises
    before it writes anything. *)
Theorem MonteCarloAgent_step_leaves (self : MonteCarloAgent) (rnd : Rand)
    (state_dict : list (string * pyval)) (actions_dict : list (string * Z)) :
  let state := state_of_dict state_dict in
  let out := MonteCarloAgent_step self rnd state_dict actions_dict in
  out.2 = None
  ∧ mc_agent out.1 = mc_agent self
  ∧ (∀ action,
       (rnd_random rnd <? epsilon (mc_agent self))%float = true →
       random_choice rnd (actions_possible actions_dict) = Some action →
       q_seen out.1 = q_seen self ++ [(state, action)]
       ∧ ((state, action) ∈ q_seen self →
            state_seen out.1 = state_seen self
            ∧ action_seen out.1 = action_seen self)
       ∧ ((state, action) ∉ q_seen self →
            state_seen out.1 = state_seen self ++ [state]
            ∧ action_seen out.1 = action_seen self ++ [action]))
  ∧ ((rnd_random rnd <? epsilon (mc_agent self))%float = false
     ∨ actions_possible actions_dict = [] →
     out.1 = self).
Proof.
  intros state out. subst out.
  split; [apply MonteCarloAgent_step_raises |].
  split; [apply MonteCarloAgent_step_raises |].
  unfold MonteCarloAgent_step. fold state. split.
  - intros action Hexp Hchoice. rewrite Hexp, Hchoice.
    unfold loc_tuple.
    case_bool_decide as Hin;
      cbn [mbind option_bind fst q_seen state_seen action_seen].
    + split; [done |]. split; [intros Hel; by destruct Hin | by intros _].
    + split; [done |]. split; [by intros _ | intros Hnot; by destruct Hnot].
  - intros [Hgreedy | Hnil].
    + rewrite Hgreedy, MonteCarlo_scan_no_action. reflexivity.
    + destruct (rnd_random rnd <? epsilon (mc_agent self))%float.
      * rewrite Hnil. reflexivity.
      * rewrite MonteCarlo_scan_no_action. reflexivity.
Qed.

(** A first visit and a repeated one, exploring: the pair is recorded,
    the visit count stays 0, the call raises.  A greedy call raises with
    nothing recorded. *)
Example MonteCarloAgent_step_examples :
  MonteCarloAgent_step (example_mc 0.5 0) example_rnd
    (dict_of_state one_red_state) [("RED"%string, 1)]
  = (example_mc_visited 1 0, None)
  ∧ MonteCarloAgent_step (example_mc_visited 1 0) example_rnd
      (dict_of_state one_red_state) [("RED"%string, 1)]
    = (example_mc_visited 2 0, None)
  ∧ MonteCarloAgent_step (example_mc 0.5 0) (mkRand 0.5 0 (λ l, l))
      (dict_of_state one_red_state) [("RED"%string, 1)]
    = (example_mc 0.5 0, None).
Proof. split_and!; reflexivity. Qed.

(** ** Draws, discards and the order of the piles *)

Lemma Deck_draw_from_deck_perm (self self' : Deck) (card : Card) :
  Deck_draw_from_deck self = Some (card, self') →
  cards self ++ cards_disc self ≡ₚ card :: (cards self' ++ cards_disc self').
Proof.
  destruct self as [cs ds].
  destruct cs as [|c cs _] using rev_ind.
  - destruct ds as [|d ds _] using rev_ind.
    + by rewrite Deck_draw_from_deck_empty.
    + rewrite (Deck_draw_from_deck_recycle _ ds d) by done.
      intros [= <- <-]. cbn [cards cards_disc app]. rewrite app_nil_r.
      by rewrite Permutation_app_comm.
  - rewrite (Deck_draw_from_deck_top _ cs c) by done.
    intros [= <- <-]. cbn [cards cards_disc].
    by rewrite (Permutation_app_comm cs [c]).
Qed.

(** X13.  A draw hands out a card of the piles and keeps all the others:
    the cards of the two piles before the draw are, up to order, the card
    drawn and the cards of the two piles after it; and the draw pile after
    the draw is a prefix of the pile that was drawn from, in its order. *)
Theorem Deck_draw_from_deck_keeps_cards (self self' : Deck) (card : Card) :
  Deck_draw_from_deck self = Some (card, self') →
  cards self ++ cards_disc self ≡ₚ card :: (cards self' ++ cards_disc self')
  ∧ card ∈ cards self ++ cards_disc self
  ∧ (cards self' ++ [card] = cards self ∧ cards_disc self' = cards_disc self
     ∨ cards self = [] ∧ cards self' ++ [card] = cards_disc self
       ∧ cards_disc self' = []).
Proof.
  intros H. pose proof (Deck_draw_from_deck_perm _ _ _ H) as Hperm.
  split; [exact Hperm |]. split; [rewrite Hperm; left |].
  destruct self as [cs ds]. cbn [cards cards_disc].
  destruct cs as [|c cs _] using rev_ind.
  - destruct ds as [|d ds _] using rev_ind.
    + by rewrite Deck_draw_from_deck_empty in H.
    + rewrite (Deck_draw_from_deck_recycle _ ds d) in H by done.
      injection H as <- <-. by right.
  - rewrite (Deck_draw_from_deck_top _ cs c) in H by done.
    injection H as <- <-. by left.
Qed.

Lemma Deck_draw_from_deck_keeps_cards_witness :
  cards example_deck ++ cards_disc example_deck
  ≡ₚ mkCard (PStr "RED") (PInt 7)
     :: ([mkCard (PStr "RED") (PInt 1); mkCard (PStr "GRE") (PInt 2);
          mkCard (PStr "BLU") (PInt 3); mkCard (PStr "YEL") (PInt 4)] ++ []).
Proof.
  apply (Deck_draw_from_deck_keeps_cards example_deck
           (mkDeck [mkCard (PStr "RED") (PInt 1); mkCard (PStr "GRE") (PInt 2);
                    mkCard (PStr "BLU") (PInt 3); mkCard (PStr "YEL") (PInt 4)]
              []) (mkCard (PStr "RED") (PInt 7))).
  reflexivity.
Defined.

(** X14.  A discard followed by a draw: with cards in the draw pile the two
    commute (the card drawn is the one that would have been drawn, and the
    discarded card lies on the discard pile afterwards); with an empty draw
    pile the card just discarded is the one drawn, and the former discard
    pile is the new draw pile. *)
Theorem Deck_discard_then_draw (self : Deck) (card : Card) :
  (cards self ≠ [] →
   Deck_draw_from_deck (Deck_discard self card)
   = (λ r : Card * Deck, (r.1, Deck_discard r.2 card))
       <$> Deck_draw_from_deck self)
  ∧ (cards self = [] →
     Deck_draw_from_deck (Deck_discard self card)
     = Some (card, mkDeck (cards_disc self) [])).
Proof.
  destruct self as [cs ds]. cbn [cards cards_disc]. split.
  - intros Hne. destruct cs as [|c cs _] using rev_ind; [done |].
    unfold Deck_discard. cbn [cards cards_disc].
    rewrite (Deck_draw_from_deck_top (mkDeck (cs ++ [c]) (ds ++ [card])) cs c)
      by done.
    by rewrite (Deck_draw_from_deck_top (mkDeck (cs ++ [c]) ds) cs c) by done.
  - intros ->. unfold Deck_discard. cbn [cards cards_disc].
    by apply Deck_draw_from_deck_recycle.
Qed.

(** X15.  Draws in a row, with no discard in between, hand out the draw
    pile from its top (last) card down and then the discard pile in the
    same way, the card discarded last first; they succeed as long as the two
    piles hold a card and the next draw raises. *)
Theorem draw_k_order (k : nat) :
  ∀ d : Deck,
    fst <$> draw_k k d
    = if bool_decide (k ≤ piles d)%nat
      then Some (take k (reverse (cards d) ++ reverse (cards_disc d)))
      else None.
Proof.
  induction k as [|k IH]; intros d.
  - cbn [draw_k]. rewrite bool_decide_eq_true_2 by lia. done.
  - cbn [draw_k]. destruct d as [cs ds].
    destruct cs as [|c cs _] using rev_ind.
    + destruct ds as [|x ds _] using rev_ind.
      * rewrite Deck_draw_from_deck_empty by done.
        rewrite bool_decide_eq_false_2; [done |]. unfold piles. cbn. lia.
      * rewrite (Deck_draw_from_deck_recycle _ ds x) by done.
        cbn [mbind option_bind]. specialize (IH (mkDeck ds [])).
        unfold piles in *. cbn [cards cards_disc length] in *.
        rewrite length_app. cbn [length]. rewrite reverse_snoc.
        cbn [reverse app take] in *. rewrite app_nil_r in IH.
        destruct (draw_k k (mkDeck ds [])) as [[drawn d2]|];
          cbn [fmap option_fmap option_map fst mbind option_bind] in *;
          repeat case_bool_decide; try lia; try done.
        by injection IH as ->.
    + rewrite (Deck_draw_from_deck_top _ cs c) by done.
      cbn [mbind option_bind cards_disc]. specialize (IH (mkDeck cs ds)).
      unfold piles in *. cbn [cards cards_disc] in *.
      rewrite length_app. cbn [length]. rewrite reverse_snoc.
      cbn [app take].
      destruct (draw_k k (mkDeck cs ds)) as [[drawn d2]|];
        cbn [fmap option_fmap option_map fst mbind option_bind] in *;
        repeat case_bool_decide; try lia; try done.
      by injection IH as ->.
Qed.

Example draw_k_through_recycle :
  fst <$> draw_k 3
            (mkDeck [mkCard (PStr "RED") (PInt 1); mkCard (PStr "RED") (PInt 2)]
               [mkCard (PStr "BLU") (PInt 3); mkCard (PStr "BLU") (PInt 4)])
  = Some [mkCard (PStr "RED") (PInt 2); mkCard (PStr "RED") (PInt 1);
          mkCard (PStr "BLU") (PInt 4)].
Proof. reflexivity. Qed.

(** ** The loop of start-up *)

Lemma start_up_loop_None (fuel : nat) :
  ∀ (d : Deck) (c : Card),
    (piles d < fuel)%nat →
    start_up_loop fuel d c = None
    ↔ not_normal c ∧ Forall not_normal (cards d ++ cards_disc d).
Proof.
  induction fuel as [|fuel IH]; intros d c Hfuel; [lia |].
  cbn [start_up_loop]. unfold not_normal at 1.
  destruct (in_range_0_10 (value c)) eqn:Hc.
  { split; [done |]. by intros [? _]. }
  destruct (Deck_draw_from_deck d) as [[x d1]|] eqn:Hdraw;
    cbn [mbind option_bind].
  - pose proof (Deck_draw_from_deck_piles _ _ _ Hdraw) as Hpiles.
    rewrite IH by lia. rewrite (Deck_draw_from_deck_perm _ _ _ Hdraw).
    rewrite Forall_cons. tauto.
  - split; [| done]. intros _. split; [done |].
    assert (piles d = 0)%nat as Hz.
    { destruct (Nat.eq_dec (piles d) 0%nat) as [? | Hne]; [done |].
      destruct (proj2 (Deck_draw_from_deck_is_Some d)) as [? ?]; [lia |].
      congruence. }
    unfold piles in Hz. destruct (cards d), (cards_disc d); try discriminate.
    constructor.
Qed.

Lemma start_up_loop_source (fuel : nat) :
  ∀ (d d' : Deck) (c c' : Card),
    start_up_loop fuel d c = Some (c', d') →
    (c' = c ∧ d' = d)
    ∨ (not_normal c ∧ c' ∈ cards d ++ cards_disc d
       ∧ (piles d' < piles d)%nat).
Proof.
  induction fuel as [|fuel IH]; intros d d' c c' H; cbn [start_up_loop] in H;
    destruct (in_range_0_10 (value c)) eqn:Hc; try done;
    try (injection H as <- <-; by left).
  apply bind_Some in H as ([x d1] & Hdraw & H).
  pose proof (Deck_draw_from_deck_piles _ _ _ Hdraw) as Hpiles.
  pose proof (Deck_draw_from_deck_perm _ _ _ Hdraw) as Hperm.
  right. split; [done |]. rewrite Hperm.
  apply IH in H as [[-> ->] | (_ & Hin & Hlt)].
  - split; [left | lia].
  - split; [by right | lia].
Qed.

(** X16.  The loop of [Turn.start_up] that looks for the first open card
    keeps a normal candidate (value 0 to 9) without a draw; it ends on a
    normal card, the candidate itself or a card taken from the piles, and
    it raises IndexError exactly when neither the candidate nor any card of
    the two piles is normal. *)
Theorem start_up_loop_result (d : Deck) (c : Card) :
  (in_range_0_10 (value c) = true →
   start_up_loop (S (piles d)) d c = Some (c, d))
  ∧ (start_up_loop (S (piles d)) d c = None
     ↔ not_normal c ∧ Forall not_normal (cards d ++ cards_disc d))
  ∧ (∀ c' d', start_up_loop (S (piles d)) d c = Some (c', d') →
       in_range_0_10 (value c') = true
       ∧ ((c' = c ∧ d' = d)
          ∨ (not_normal c ∧ c' ∈ cards d ++ cards_disc d
             ∧ (piles d' < piles d)%nat))).
Proof.
  split_and!.
  - intros Hc. cbn [start_up_loop]. by rewrite Hc.
  - apply start_up_loop_None. lia.
  - intros c' d' H. split.
    + by apply start_up_loop_spec in H as [? _].
    + by eapply start_up_loop_source.
Qed.

Example start_up_loop_no_normal_card :
  start_up_loop 3 (mkDeck [mkCard (PStr "RED") (PStr "SKI")]
                     [mkCard (PStr "WILD") (PStr "COL")])
    (mkCard (PStr "WILD") (PStr "PL4"))
  = None.
Proof. reflexivity. Qed.

(** ** The starting player *)

(** X17.  In game [i] of a tournament (counted from 0) the player active
    in round 1 is player 1 when [i] is even and player 2 when [i] is odd,
    unless the two configured names are equal: the game then takes the
    starting name for the name of player 1, who opens every game. *)
Theorem tournament_first_active (i : Z) (player_name_1 player_name_2 : string) :
  active_player (tournament_starting_name i player_name_1 player_name_2)
    player_name_1 1
  = if bool_decide (player_name_1 = player_name_2) || Z.even i
    then First else Second.
Proof.
  unfold active_player, tournament_starting_name.
  rewrite Zmod_even. change (1 `mod` 2 =? 1) with true.
  change (1 `mod` 2 =? 0) with false.
  destruct (Z.even i); cbn [Z.eqb Pos.eqb orb].
  - rewrite bool_decide_eq_true_2 by done. by rewrite orb_true_r.
  - rewrite orb_false_r. by case_bool_decide; case_bool_decide.
Qed.
